(** * packrattle: the match model and the combiners

    A shallow embedding of the matcher module (spans, matches, schedules
    and the helpers [fail], [success], [schedule], [defer], [mapMatch]; it
    is the last part of src/packrattle/parser_state.coffee) and of
    src/combiners.ts ([chain], [alt], [optionalOr], [optional], [check],
    [not], [repeat]), with the properties of the combiners proved about it.

    JavaScript numbers that hold positions, counters and priorities are
    integers ([Z]); the type parameters of the TypeScript source are erased,
    as they are when the code runs, and match values are JavaScript values.

    A handler is a closure; here it is a constructor of [Handler] that holds
    the variables the closure captures, and [call] runs its body.  The
    variables that the handlers of [alt] share and update live in a store,
    which every call receives and returns; a call can also throw.

    The file also embeds [seq] and [seq2] of src/combiners.ts and, in the
    module [ParserState], the positions, lines and spans of the parser state
    of src/packrattle/parser_state.coffee ([advance], [flip], [backfill],
    [line], [toSquiggles]), a text being a string of characters indexed
    from 0. *)

From Stdlib Require Import ZArith Lia Bool String Ascii.
From Stdlib Require DecimalString.
From stdpp Require Import base list.

Local Open Scope string_scope.
Local Open Scope list_scope.
Local Open Scope Z_scope.

(** ** Spans *)

(** [class Span { start; end }]; [end] is a keyword here, hence [end_]. *)
Record Span : Type := mkSpan { start : Z; end_ : Z }.

(** [mergeSpan(span1, span2)] *)
Definition mergeSpan (span1 span2 : Span) : Span :=
  if (start span1 <? start span2) || (end_ span1 <? end_ span2)
  then mkSpan (start span1) (end_ span2)
  else mkSpan (start span2) (end_ span1).

(** The covering span of two spans, in the words of the specification:
    (min of the starts, max of the ends). *)
Definition covering (s1 s2 : Span) : Span :=
  mkSpan (Z.min (start s1) (start s2)) (Z.max (end_ s1) (end_ s2)).

(** [inside s t]: [s] lies inside [t] and touches neither of its borders. *)
Definition inside (s t : Span) : Prop :=
  start t < start s /\ end_ s < end_ t.

(** ** JavaScript values and numbers *)

(** The values a match carries.  [combiners.ts] itself builds [undefined]
    ([optional]), [null] ([not]) and arrays ([repeat]); the other values come
    from the grammar's own parsers and reducers. *)
#[warnings="-register-all"]
Inductive Value : Type :=
| VUndefined
| VNull
| VBoolean (b : bool)
| VNumber (n : Z)
| VString (s : string)
| VArray (items : list Value)
| VObject (ref : nat).

(** A [number] of [RepeatOptions]: an integer, or [Infinity]. *)
Inductive number : Type :=
| Num (n : Z)
| Infinity.

(** [n.toString()] of an integer, as a template literal prints it. *)
Definition number_toString (n : Z) : string :=
  DecimalString.NilZero.string_of_int (Z.to_int n).

(** [x || d] where [x] is an optional number: [undefined] and [0] are falsy. *)
Definition or_number (x : option number) (d : number) : number :=
  match x with
  | None => d
  | Some (Num n) => if n =? 0 then d else Num n
  | Some Infinity => Infinity
  end.

(** [count >= bound] *)
Definition ge_number (count : Z) (bound : number) : bool :=
  match bound with
  | Num n => n <=? count
  | Infinity => false
  end.

(** [count < bound] *)
Definition lt_number (count : Z) (bound : number) : bool :=
  match bound with
  | Num n => count <? n
  | Infinity => true
  end.

(** ** The parser state of parser_state.coffee *)

Module ParserState.
Section State.

(** The classes of the trampoline and of the debugger are outside these
    files; a state carries the two and the methods below copy them. *)
Context {Trampoline Debugger : Type}.

(** The linefeed. *)
Definition newline : ascii := "010"%char.

(** [text[i]]: [undefined] before the text and past its end. *)
Definition char_at (text : string) (i : Z) : option ascii :=
  if i <? 0 then None else String.get (Z.to_nat i) text.

(** [text[i] == '\n'] *)
Definition is_newline (text : string) (i : Z) : bool :=
  match char_at text i with
  | Some c => Ascii.eqb c newline
  | None => false
  end.

(** [text.slice(from, to)] of JavaScript: a negative index counts from the
    end of the text, and both are kept within the text. *)
Definition slice (text : string) (from to : Z) : string :=
  let len := Z.of_nat (String.length text) in
  let from := if from <? 0 then Z.max (len + from) 0 else Z.min from len in
  let to := if to <? 0 then Z.max (len + to) 0 else Z.min to len in
  substring (Z.to_nat from) (Z.to_nat (to - from)) text.

(** The fields of a state.  [oldpos] is [[ pos, xpos, lineno ]]; it and the
    three [end...] fields are not there until [advance] and [flip] set
    them. *)
Record ParserState : Type := mkState {
  text : string;
  pos : Z;
  end_ : Z;
  lineno : Z;
  xpos : Z;
  trampoline : Trampoline;
  depth : Z;
  debugger : option Debugger;
  stateName : option string;
  previousStateName : option string;
  oldpos : option (Z * Z * Z);
  endpos : option Z;
  endxpos : option Z;
  endlineno : option Z
}.

(** [constructor: (@text, @pos=0, @end)]; [trampoline] stands for
    [new Trampoline(@)]. *)
Definition new (text : string) (pos : option Z) (end_ : option Z)
    (trampoline : Trampoline) : ParserState :=
  mkState text
    (match pos with Some p => p | None => 0 end)
    (match end_ with Some e => e | None => Z.of_nat (String.length text) end)
    0 0 trampoline 0 None None None None None None None.

(** The loop of [advance], [steps] times: [while pos < @pos + n]. *)
Fixpoint advance_loop (text : string) (steps : nat) (pos lineno xpos : Z)
    : Z * Z * Z :=
  match steps with
  | O => (pos, lineno, xpos)
  | S steps' =>
      if is_newline text pos
      then advance_loop text steps' (pos + 1) (lineno + 1) 0
      else advance_loop text steps' (pos + 1) lineno (xpos + 1)
  end.

(** [advance(n)]: the position advanced [n] places, [lineno] and [xpos]
    adjusted by watching for linefeeds, the previous position saved.
    [copy(oldpos: ..., pos: ..., lineno: ..., xpos: ...)] *)
Definition advance (s : ParserState) (n : Z) : ParserState :=
  let '(pos', lineno', xpos') :=
    advance_loop (text s) (Z.to_nat n) (pos s) (lineno s) (xpos s) in
  mkState (text s) pos' (end_ s) lineno' xpos' (trampoline s) (depth s)
    (debugger s) (stateName s) (previousStateName s)
    (Some (pos s, xpos s, lineno s))
    (endpos s) (endxpos s) (endlineno s).

(** [flip()]: turn (oldpos, pos) into (pos, endpos). *)
Definition flip (s : ParserState) : ParserState :=
  let '(pos', xpos', lineno') :=
    match oldpos s with
    | Some old => old
    | None => (pos s, xpos s, lineno s)
    end in
  mkState (text s) pos' (end_ s) lineno' xpos' (trampoline s) (depth s)
    (debugger s) (stateName s) (previousStateName s) (oldpos s)
    (Some (pos s)) (Some (xpos s)) (Some (lineno s)).

(** [backfill(otherState)]: rewind oldpos to cover a previous state, too. *)
Definition backfill (s otherState : ParserState) : ParserState :=
  match endpos s with
  | Some _ =>
      mkState (text s) (pos otherState) (end_ s) (lineno otherState)
        (xpos otherState) (trampoline s) (depth s) (debugger s)
        (stateName s) (previousStateName s) (oldpos s)
        (endpos s) (endxpos s) (endlineno s)
  | None =>
      mkState (text s) (pos s) (end_ s) (lineno s) (xpos s) (trampoline s)
        (depth s) (debugger s) (stateName s) (previousStateName s)
        (Some (match oldpos otherState with
               | Some old => old
               | None => (pos otherState, xpos otherState, lineno otherState)
               end))
        (endpos s) (endxpos s) (endlineno s)
  end.

(** The first loop of [line]:
    [while lstart > 0 and text[lstart] != '\n' then lstart--] *)
Fixpoint scan_back (text : string) (fuel : nat) (lstart : Z) : Z :=
  match fuel with
  | O => lstart
  | S fuel' =>
      if (0 <? lstart) && negb (is_newline text lstart)
      then scan_back text fuel' (lstart - 1)
      else lstart
  end.

(** The second loop of [line]:
    [while lend < end and text[lend] != '\n' then lend++] *)
Fixpoint scan_forward (text : string) (end_ : Z) (fuel : nat) (lend : Z)
    : Z :=
  match fuel with
  | O => lend
  | S fuel' =>
      if (lend <? end_) && negb (is_newline text lend)
      then scan_forward text end_ fuel' (lend + 1)
      else lend
  end.

(** Where the line around [pos] starts and ends, as [line] finds it.  The
    first loop stops at 0 and the second at [end], so the loops get as
    many rounds as they can make. *)
Definition line_bounds (s : ParserState) (pos : Z) : Z * Z :=
  let lstart := pos in
  let lend := pos in
  let lstart :=
    if (0 <? lstart) && is_newline (text s) lstart
    then lstart - 1 else lstart in
  let lstart := scan_back (text s) (Z.to_nat lstart) lstart in
  let lstart := if is_newline (text s) lstart then lstart + 1 else lstart in
  let lend := scan_forward (text s) (end_ s) (Z.to_nat (end_ s - lend)) lend in
  (lstart, lend).

(** [line(pos)]: the text of the current line around [pos]. *)
Definition line (s : ParserState) (pos : Z) : string :=
  let '(lstart, lend) := line_bounds s pos in
  slice (text s) lstart lend.

(** [[from ... to].map(-> c).join("")]: one [c] for each number of the
    range, which counts up or down to [to] and leaves [to] out; with
    [undefined] for [to] the range is empty. *)
Fixpoint copies (n : nat) (c : ascii) : string :=
  match n with
  | O => EmptyString
  | S n' => String c (copies n' c)
  end.

Definition range_map (from : Z) (to : option Z) (c : ascii) : string :=
  match to with
  | Some to => copies (Z.to_nat (Z.abs (to - from))) c
  | None => EmptyString
  end.

(** [toSquiggles()]: the line, and the marks under it. *)
Definition toSquiggles (s : ParserState) : string * string :=
  let line := line s (pos s) in
  let endxpos := endxpos s in
  let endxpos :=
    if match endlineno s with
       | Some l => negb (l =? lineno s)
       | None => true
       end
    then Some (Z.of_nat (String.length line))
    else endxpos in
  let endxpos :=
    match endxpos with
    | Some e => if e =? xpos s then Some (e + 1) else Some e
    | None => None
    end in
  (line, (range_map 0 (Some (xpos s)) " " ++ range_map (xpos s) endxpos "~")%string).

(** How often [c] is in a text. *)
Fixpoint occurrences (c : ascii) (text : string) : nat :=
  match text with
  | EmptyString => O
  | String c' rest =>
      if Ascii.eqb c' c then S (occurrences c rest) else occurrences c rest
  end.

End State.
End ParserState.

Section Combiners.

(** The atoms of the input, the parser nodes and the engine's tasks: their
    classes ([Parser] in parser.ts, [ParseTask] in engine.ts) are outside
    the two files embedded here, and the combiners only pass them around.
    [description] is [parser.description]; [toString] is what a template
    literal prints for a parser. *)
Context {A Parser ParseTask : Type}.
Variable description : Parser -> string.
Variable toString : Parser -> string.

(** [interface Sequence<A>]: the input, indexable. *)
Definition Sequence : Type := list A.

(** ** Matches *)

(** [class MatchSuccess { span; value }] *)
Record MatchSuccess : Type := mkSuccess { sspan : Span; value : Value }.

(** Modelled from the spec: the [priority] field of a failure, which
    [findBestFail] reads and the class as declared in the matcher module
    leaves out: "Failures carry a priority (0 by default; a combinator may
    tag a child with a higher priority via a naming operation)".  The other
    fields are those of [class MatchFailure { span; message; task? }]. *)
Record MatchFailure : Type := mkFailure {
  fspan : Span;
  message : string;
  task : option ParseTask;
  priority : Z
}.

(** [new MatchFailure(span, message, task)]: the priority is the default. *)
Definition new_MatchFailure (span : Span) (message : string)
    (task : option ParseTask) : MatchFailure :=
  mkFailure span message task 0.

(** [type Match = MatchSuccess | MatchFailure]; the [instanceof] tests of the
    source are the two cases of a [match], and its [throw new
    Error("impossible")] branches have no case left. *)
Inductive Match : Type :=
| MSuccess (s : MatchSuccess)
| MFailure (f : MatchFailure).

(** ** Closures *)

(** The variables [count] and [fails] that the handlers of one activation of
    [alt] share and update. *)
Record AltCell : Type := mkAltCell { count : Z; fails : list MatchFailure }.

(** The store of these cells: an activation of [alt] allocates one at the
    end, and its handlers hold its position. *)
Abbreviation Heap := (list AltCell).

(** What a call does: it returns a value and leaves a store, or it throws
    [new Error(message)]. *)
Inductive Outcome (T : Type) : Type :=
| Returned (v : T) (heap : Heap)
| Thrown (error : string).
Arguments Returned {T} v heap.
Arguments Thrown {T} error.

Definition M (T : Type) : Type := Heap -> Outcome T.

Definition ret {T : Type} (v : T) : M T := fun heap => Returned v heap.

Definition bind {T U : Type} (c : M T) (k : T -> M U) : M U :=
  fun heap =>
    match c heap with
    | Returned v heap' => k v heap'
    | Thrown e => Thrown e
    end.

Definition throw {T : Type} (error : string) : M T := fun _ => Thrown error.

Notation "x <- c ;; k" := (bind c (fun x => k))
  (at level 100, c at next level, right associativity).
Notation "c ;;; k" := (bind c (fun _ => k))
  (at level 100, right associativity).

(** [let count = 0; const fails = [];] *)
Definition alloc (c : AltCell) : M nat :=
  fun heap => Returned (length heap) (heap ++ [c]).

(** Reading and writing the variables of a closure.  A position that was
    never allocated has no counterpart in the source: no handler exists
    before its activation has run. *)
Definition read (cell : nat) : M AltCell :=
  fun heap =>
    match heap !! cell with
    | Some c => Returned c heap
    | None => Thrown "unallocated closure"
    end.

Definition write (cell : nat) (c : AltCell) : M unit :=
  fun heap => Returned tt (<[cell := c]> heap).

(** The handlers that the combiners build, each with the variables its
    closure captures; [call] below runs their bodies.  [repeat]'s handler
    refers to [next], and [next] builds that handler again: as data, the
    closure is finite. *)
Inductive Handler : Type :=
| chain_handler1 (p2 : Parser) (combiner : Value -> Value -> Value)
| chain_handler2 (span1 : Span) (value1 : Value)
    (combiner : Value -> Value -> Value)
| alt_handler (parser : Parser) (children : list Parser) (index : Z)
    (cell : nat)
| defer_handler
| check_handler (index : Z)
| not_handler (parser : Parser) (index : Z)
| repeat_handler (parser child : Parser) (min max : number)
    (index : Z) (count : Z) (accumulator : list Value).

(** [class Schedule { parser; index; handler }] and
    [type MatchResult = (Match | Schedule)[]] *)
Inductive Item : Type :=
| IMatch (m : Match)
| ISchedule (parser : Parser) (index : Z) (handler : Handler).

Definition MatchResult : Type := list Item.

(** [type Matcher = (stream, index) => MatchResult] *)
Definition Matcher : Type := Sequence -> Z -> M MatchResult.

(** ** Helpers of matcher.ts *)

(** [fail(index, message, task)]; [message] is a string or a parser. *)
Definition fail (index : Z) (message : string + Parser)
    (task : option ParseTask) : MatchResult :=
  let match_ :=
    new_MatchFailure (mkSpan index index)
      (match message with
       | inr parser => "Expected " ++ description parser
       | inl text => text
       end)
      task in
  [ IMatch (MFailure match_) ].

(** [success(start, end, value)] *)
Definition success (start end_ : Z) (value : Value) : MatchResult :=
  [ IMatch (MSuccess (mkSuccess (mkSpan start end_) value)) ].

(** [schedule(parser, index, handler)] *)
Definition schedule (parser : Parser) (index : Z) (handler : Handler)
    : MatchResult :=
  [ ISchedule parser index handler ].

(** [defer(parser, index)]: the handler is [match => [ match ]]. *)
Definition defer (parser : Parser) (index : Z) : MatchResult :=
  [ ISchedule parser index defer_handler ].

(** [mapMatch(match, f)]: pass failures through, but map successes. *)
Definition mapMatch (match_ : Match) (f : Span -> Value -> MatchResult)
    : MatchResult :=
  match match_ with
  | MFailure failure => [ IMatch (MFailure failure) ]
  | MSuccess s => f (sspan s) (value s)
  end.

(** ** The combiners of combiners.ts *)

(** [chain(p1, p2, combiner)]: the matcher, with [children = [ p1, p2 ]]. *)
Definition chain_matcher (p1 p2 : Parser)
    (combiner : Value -> Value -> Value) : Matcher :=
  fun stream index => ret (schedule p1 index (chain_handler1 p2 combiner)).

(** The handler that [chain] gives to [p1]. *)
Definition chain_on_p1 (p2 : Parser) (combiner : Value -> Value -> Value)
    (match1 : Match) : MatchResult :=
  mapMatch match1 (fun span1 value1 =>
    schedule p2 (end_ span1) (chain_handler2 span1 value1 combiner)).

(** The handler that [chain] gives to [p2]. *)
Definition chain_on_p2 (span1 : Span) (value1 : Value)
    (combiner : Value -> Value -> Value) (match2 : Match) : MatchResult :=
  mapMatch match2 (fun span2 value2 =>
    [ IMatch (MSuccess
        (mkSuccess (mergeSpan span1 span2) (combiner value1 value2))) ]).

(** The comparison inside [findBestFail]'s loop: [f] replaces [best]. *)
Definition replaces (f best : MatchFailure) : bool :=
  (priority best <? priority f)
  || ((priority f =? priority best)
      && (start (fspan best) <? start (fspan f))).

(** [let best = fails[0]; fails.forEach(f => { if (...) best = f; });]
    [None] is [undefined], the value of [fails[0]] on an empty array. *)
Definition pickBest (fails : list MatchFailure) : option MatchFailure :=
  match fails !! 0%nat with
  | Some first =>
      Some (fold_left (fun best f => if replaces f best then f else best)
              fails first)
  | None => None
  end.

(** [findBestFail(index, fails)]; reading [best.span] of [undefined] throws. *)
Definition findBestFail (parser : Parser) (index : Z)
    (fails : list MatchFailure) : M MatchResult :=
  match pickBest fails with
  | Some best =>
      if (start (fspan best) =? index) && (priority best =? 0)
      then ret (fail index (inr parser) None)
      else ret [ IMatch (MFailure best) ]
  | None => throw "TypeError: Cannot read properties of undefined"
  end.

(** [alt(...parsers)]: the matcher.  One cell holds [count] and [fails]; the
    handlers of all children share it. *)
Definition alt_matcher (parser : Parser) (children : list Parser) : Matcher :=
  fun stream index =>
    cell <- alloc (mkAltCell 0 []) ;;
    ret (rev (map (fun p =>
                ISchedule p index (alt_handler parser children index cell))
              children)).

(** The handler that [alt] gives to each child. *)
Definition alt_on_child (parser : Parser) (children : list Parser)
    (index : Z) (cell : nat) (match_ : Match) : M MatchResult :=
  match match_ with
  | MSuccess _ => ret [ IMatch match_ ]
  | MFailure failure =>
      c <- read cell ;;
      let fails' := fails c ++ [ failure ] in
      let count' := count c + 1 in
      write cell (mkAltCell count' fails') ;;;
      if (count' =? Z.of_nat (length children))
         && (count' =? Z.of_nat (length fails'))
      then findBestFail parser index fails'
      else ret []
  end.

(** [optionalOr(p, defaultValue)]: the matcher. *)
Definition optionalOr_matcher (p : Parser) (defaultValue : Value) : Matcher :=
  fun stream index => ret (defer p index ++ success index index defaultValue).

(** [optional(p)] is [optionalOr(p, undefined)]. *)
Definition optional_matcher (p : Parser) : Matcher :=
  optionalOr_matcher p VUndefined.

(** [check(p)]: the matcher and its handler. *)
Definition check_matcher (p : Parser) : Matcher :=
  fun stream index => ret (schedule p index (check_handler index)).

Definition check_on_child (index : Z) (match_ : Match) : MatchResult :=
  mapMatch match_ (fun span value => success index index value).


Definition not_on_child (parser : Parser) (index : Z) (match_ : Match)
    : MatchResult :=
  match match_ with
  | MSuccess _ => fail index (inr parser) None
  | MFailure _ => success index index VNull
  end.

(** [interface RepeatOptions { min?; max? }] *)
Record RepeatOptions : Type := mkOptions {
  min : option number;
  max : option number
}.

(** [const min = options.min || 0; const max = options.max || Infinity;] *)
Definition repeat_min (options : RepeatOptions) : number :=
  or_number (min options) (Num 0).

Definition repeat_max (options : RepeatOptions) : number :=
  or_number (max options) Infinity.

(** [next(count, accumulator, pos)] inside [repeat]'s matcher: register any
    success, and try again if we're allowed to go for more. *)
Definition next (parser child : Parser) (min max : number) (index : Z)
    (count : Z) (accumulator : list Value) (pos : Z) : MatchResult :=
  let rv := [] in
  let rv :=
    if ge_number count min
    then rv ++ [ IMatch (MSuccess
                   (mkSuccess (mkSpan index pos) (VArray accumulator))) ]
    else rv in
  let rv :=
    if lt_number count max
    then rv ++ [ ISchedule child pos
                   (repeat_handler parser child min max index
                      count accumulator) ]
    else rv in
  rv.

(** [process(match, count, accumulator)]: process the next match. *)
Definition process (parser child : Parser) (min max : number) (index : Z)
    (match_ : Match) (count : Z) (accumulator : list Value)
    : M MatchResult :=
  match match_ with
  | MFailure failure =>
      if lt_number count min
      then ret [ IMatch (MFailure
                   (new_MatchFailure (mkSpan index (start (fspan failure)))
                      ("Expected " ++ description parser) None)) ]
      else ret []
  | MSuccess s =>
      if start (sspan s) =? end_ (sspan s)
      then throw ("Repeating parser isn't making progress at position "
                  ++ number_toString (start (sspan s)) ++ ": "
                  ++ toString child)
      else ret (next parser child min max index
                  (count + 1) (accumulator ++ [ value s ]) (end_ (sspan s)))
  end.

(** [repeat(p, options)]: the matcher. *)
Definition repeat_matcher (parser p : Parser) (options : RepeatOptions)
    : Matcher :=
  fun stream index =>
    ret (next parser p (repeat_min options) (repeat_max options) index
           0 [] index).

(** ** Calling a handler *)

(** [handler(match)], for the handler of a [Schedule]. *)
Definition call (handler : Handler) (match_ : Match) : M MatchResult :=
  match handler with
  | chain_handler1 p2 combiner => ret (chain_on_p1 p2 combiner match_)
  | chain_handler2 span1 value1 combiner =>
      ret (chain_on_p2 span1 value1 combiner match_)
  | alt_handler parser children index cell =>
      alt_on_child parser children index cell match_
  | defer_handler => ret [ IMatch match_ ]
  | check_handler index => ret (check_on_child index match_)
  | not_handler parser index => ret (not_on_child parser index match_)
  | repeat_handler parser child min max index count accumulator =>
      process parser child min max index match_ count accumulator
  end.

(** ** Vocabulary of the properties *)

(** The engine hands the matches of a scheduled parser to the handler of the
    [Schedule], one call for each; [deliver] makes these calls in order and
    collects what each returns. *)
Fixpoint deliver (handler : Handler) (matches : list Match)
    : M (list MatchResult) :=
  match matches with
  | [] => ret []
  | m :: rest =>
      r <- call handler m ;;
      rs <- deliver handler rest ;;
      ret (r :: rs)
  end.

Definition is_success (m : Match) : bool :=
  match m with MSuccess _ => true | MFailure _ => false end.

Definition is_failure (m : Match) : bool :=
  match m with MSuccess _ => false | MFailure _ => true end.

(** A result holds a [MatchSuccess]. *)
Definition has_success (r : MatchResult) : bool :=
  existsb (fun item =>
             match item with IMatch m => is_success m | _ => false end) r.

(** A result holds a [MatchFailure]. *)
Definition has_failure (r : MatchResult) : bool :=
  existsb (fun item =>
             match item with IMatch m => is_failure m | _ => false end) r.

(** The matches that come out of a handler when the engine calls it with
    each of the matches [reported] by the scheduled parser. *)
Definition emits (reported : Match -> Prop) (handler : Handler)
    (out : Match) : Prop :=
  exists m h r h',
    reported m /\ call handler m h = Returned r h' /\ In (IMatch out) r.

(** [f] is a better failure than [g]: a higher priority, or the same
    priority and a later start. *)
Definition outranks (f g : MatchFailure) : Prop :=
  priority g < priority f
  \/ (priority f = priority g /\ start (fspan g) < start (fspan f)).

(** [best] is one of [fs] and none of them is better. *)
Definition best_of (fs : list MatchFailure) (best : MatchFailure) : Prop :=
  In best fs /\ forall f, In f fs -> ~ outranks f best.

(** What [findBestFail] returns once [best] is chosen. *)
Definition summary (parser : Parser) (index : Z) (best : MatchFailure)
    : MatchFailure :=
  if (start (fspan best) =? index) && (priority best =? 0)
  then new_MatchFailure (mkSpan index index)
         ("Expected " ++ description parser) None
  else best.

(** The reports that the handlers of one activation of [alt] receive: which
    alternative reports (its position among the children) and its match. *)
Abbreviation Report := (nat * Match)%type.

(** The failures among the reports, in the order they arrive. *)
Fixpoint failures (reports : list Report) : list MatchFailure :=
  match reports with
  | [] => []
  | (_, MFailure f) :: rest => f :: failures rest
  | (_, MSuccess _) :: rest => failures rest
  end.


(** The cell of an activation after the reports [sofar]: [fails] holds their
    failures and [count] is their number. *)
Definition cell_after (heap : Heap) (cell : nat) (sofar : list Report)
    : Prop :=
  heap !! cell
  = Some (mkAltCell (Z.of_nat (length (failures sofar))) (failures sofar)).

(** ** Following a parse

    [answer r m]: the engine reports [m] for the parser of every Schedule
    of [r]; what their handlers return, in the order of the Schedules. *)
Fixpoint answer (r : MatchResult) (m : Match) : M MatchResult :=
  match r with
  | [] => ret []
  | IMatch _ :: rest => answer rest m
  | ISchedule _ _ handler :: rest =>
      out <- call handler m ;;
      outs <- answer rest m ;;
      ret (out ++ outs)
  end.

(** [feed r ms]: the reports [ms] one after the other, each answered by the
    Schedules that the answer before it returned. *)
Fixpoint feed (r : MatchResult) (ms : list Match) : M MatchResult :=
  match ms with
  | [] => ret r
  | m :: rest => r' <- answer r m ;; feed r' rest
  end.

(** Where a run of matches ends that starts at [pos]. *)
Definition last_end (pos : Z) (ss : list MatchSuccess) : Z :=
  List.last (map (fun s => end_ (sspan s)) ss) pos.

(** Matches that follow one another from [pos] on: each starts where the
    one before it ended, and none ends before it starts. *)
Fixpoint linked (pos : Z) (ss : list MatchSuccess) : Prop :=
  match ss with
  | [] => True
  | s :: rest =>
      start (sspan s) = pos
      /\ start (sspan s) <= end_ (sspan s)
      /\ linked (end_ (sspan s)) rest
  end.

(** ** [seq]

    The handler that [seq] builds, with the variables of [next] that its
    closure captures.  The results of [seq] hold matches and Schedules with
    this handler only. *)
Inductive SeqHandler : Type :=
| seq_handler (children : list Parser) (i : nat) (start : Z)
    (rv : list Value).

Inductive SeqItem : Type :=
| SMatch (m : Match)
| SSchedule (parser : Parser) (index : Z) (handler : SeqHandler).

(** [next(i, start, index, rv)] inside [seq]; [children] has the length of
    [parsers], so [i >= parsers.length] is the case where [children[i]] is
    not there. *)
Definition seq_next (children : list Parser) (i : nat) (start index : Z)
    (rv : list Value) : list SeqItem :=
  match children !! i with
  | None => [ SMatch (MSuccess (mkSuccess (mkSpan start index) (VArray rv))) ]
  | Some child =>
      [ SSchedule child index (seq_handler children i start rv) ]
  end.

(** The handler of [seq]: [mapMatch(match, (span, value) => next(i + 1,
    start, span.end, rv.concat([ value ])))]. *)
Definition seq_call (handler : SeqHandler) (match_ : Match) : list SeqItem :=
  match handler with
  | seq_handler children i start rv =>
      match match_ with
      | MFailure failure => [ SMatch (MFailure failure) ]
      | MSuccess s =>
          seq_next children (i + 1) start (end_ (sspan s))
            (rv ++ [ value s ])
      end
  end.

(** [seq(...parsers)]: the matcher, [(stream, index) => next(0, index,
    index)]; [rv] defaults to the empty array. *)
Definition seq_matcher (children : list Parser) (stream : Sequence)
    (index : Z) : list SeqItem :=
  seq_next children 0 index index [].

(** [seq2(p1, p2)] is [chain(p1, p2, (r1, r2) => [ r1, r2 ])]. *)
Definition seq2_matcher (p1 p2 : Parser) : Matcher :=
  chain_matcher p1 p2 (fun r1 r2 => VArray [ r1; r2 ]).

(** [answer] and [feed] for the results of [seq]. *)
Fixpoint seq_answer (r : list SeqItem) (m : Match) : list SeqItem :=
  match r with
  | [] => []
  | SMatch _ :: rest => seq_answer rest m
  | SSchedule _ _ handler :: rest => seq_call handler m ++ seq_answer rest m
  end.

Fixpoint seq_feed (r : list SeqItem) (ms : list Match) : list SeqItem :=
  match ms with
  | [] => r
  | m :: rest => seq_feed (seq_answer r m) rest
  end.

(** [H] says that an item is in a list of one item. *)
Ltac only_item H := destruct H as [H|[]].

(** ** Spans: [mergeSpan] *)

Lemma mergeSpan_ordered (s1 s2 : Span) :
  start s1 <= start s2 -> end_ s1 <= end_ s2 ->
  mergeSpan s1 s2 = mkSpan (start s1) (end_ s2).
Proof.
  intros Hs He. unfold mergeSpan.
  destruct (start s1 <? start s2) eqn:E1; [reflexivity|].
  destruct (end_ s1 <? end_ s2) eqn:E2; [reflexivity|]. simpl.
  apply Z.ltb_ge in E1, E2. f_equal; lia.
Qed.

(** The use [chain] makes of it: the second span starts where the first
    ends. *)
Lemma mergeSpan_adjacent (s1 s2 : Span) :
  start s1 <= end_ s1 -> end_ s1 = start s2 -> start s2 <= end_ s2 ->
  mergeSpan s1 s2 = covering s1 s2.
Proof.
  intros H1 H12 H2. rewrite mergeSpan_ordered by lia.
  unfold covering. f_equal; lia.
Qed.

(** C1, as the code has it: for spans s1 = (a, b) and s2 = (c, d) with
    a <= b and c <= d, mergeSpan(s1, s2) is the covering span
    (min(a, c), max(b, d)) exactly when neither span lies strictly inside
    the other, that is unless a < c and d < b, or c < a and b < d. *)
Theorem mergeSpan_covering_iff (s1 s2 : Span) :
  start s1 <= end_ s1 -> start s2 <= end_ s2 ->
  (mergeSpan s1 s2 = covering s1 s2 <-> ~ inside s1 s2 /\ ~ inside s2 s1).
Proof.
  intros _ _. unfold mergeSpan, covering, inside.
  destruct s1 as [a b], s2 as [c d]; simpl.
  destruct (a <? c) eqn:E1; [apply Z.ltb_lt in E1|apply Z.ltb_ge in E1];
    (destruct (b <? d) eqn:E2; [apply Z.ltb_lt in E2|apply Z.ltb_ge in E2]);
    simpl; split.
  all: try (intros [= Ha Hb]; lia).
  all: intros [Hn1 Hn2]; f_equal; lia.
Qed.

(** What [mergeSpan] returns when the second span lies strictly inside the
    first: the end of the inner span, not of the outer one. *)
Lemma mergeSpan_inside (s1 s2 : Span) :
  inside s2 s1 -> mergeSpan s1 s2 = mkSpan (start s1) (end_ s2).
Proof.
  intros [Hs He]. unfold mergeSpan.
  apply Z.ltb_lt in Hs. rewrite Hs. reflexivity.
Qed.

(** C1 as written fails: (1, 2) lies inside (0, 10), and the merge is
    (0, 2) where the covering span is (0, 10). *)
Lemma mergeSpan_not_covering :
  start (mkSpan 0 10) <= end_ (mkSpan 0 10)
  /\ start (mkSpan 1 2) <= end_ (mkSpan 1 2)
  /\ mergeSpan (mkSpan 0 10) (mkSpan 1 2) = mkSpan 0 2
  /\ covering (mkSpan 0 10) (mkSpan 1 2) = mkSpan 0 10
  /\ mergeSpan (mkSpan 0 10) (mkSpan 1 2)
     <> covering (mkSpan 0 10) (mkSpan 1 2).
Proof.
  repeat split; try (simpl; lia). intros H. discriminate H.
Qed.

(** ** Sequencing: [chain] *)

(** C2: the matcher of chain(p1, p2, f) schedules p1 at index; its handler
    passes a Failure of p1 through unchanged and, on a Success (span1, v1),
    schedules p2 at span1.end; that handler passes a Failure of p2 through
    unchanged, with the span p2 gave it, and on a Success (span2, v2)
    returns exactly one Success, with span mergeSpan(span1, span2) and
    value f(v1, v2). *)
Theorem chain_spec (p1 p2 : Parser) (f : Value -> Value -> Value)
    (stream : Sequence) (index : Z) (heap : Heap) :
  exists handler1,
    chain_matcher p1 p2 f stream index heap
      = Returned [ ISchedule p1 index handler1 ] heap
    /\ (forall failure1 h,
          call handler1 (MFailure failure1) h
            = Returned [ IMatch (MFailure failure1) ] h)
    /\ (forall span1 v1 h,
          exists handler2,
            call handler1 (MSuccess (mkSuccess span1 v1)) h
              = Returned [ ISchedule p2 (end_ span1) handler2 ] h
            /\ (forall failure2 h',
                  call handler2 (MFailure failure2) h'
                    = Returned [ IMatch (MFailure failure2) ] h')
            /\ (forall span2 v2 h',
                  call handler2 (MSuccess (mkSuccess span2 v2)) h'
                    = Returned
                        [ IMatch (MSuccess
                            (mkSuccess (mergeSpan span1 span2) (f v1 v2))) ]
                        h')).
Proof.
  exists (chain_handler1 p2 f). split; [reflexivity|]. split.
  - intros failure1 h. reflexivity.
  - intros span1 v1 h. exists (chain_handler2 span1 v1 f).
    split; [reflexivity|]. split; intros; reflexivity.
Qed.

(** X25: in a chain of two parsers whose matches follow one another, the
    second starting where the first ends, the Success of the chain has the
    covering span of the two: it starts with the first match and ends with
    the second, also when one of them has no width. *)
Lemma chain_span_covers (span1 span2 : Span) (v1 v2 : Value)
    (f : Value -> Value -> Value) (h : Heap) :
  start span1 <= end_ span1 -> end_ span1 = start span2 ->
  start span2 <= end_ span2 ->
  call (chain_handler2 span1 v1 f) (MSuccess (mkSuccess span2 v2)) h
    = Returned [ IMatch (MSuccess (mkSuccess (covering span1 span2)
                                     (f v1 v2))) ] h.
Proof.
  intros H1 H12 H2. simpl. unfold ret, chain_on_p2. simpl.
  rewrite mergeSpan_adjacent by assumption. reflexivity.
Qed.

(** ** [optionalOr] and [optional] *)

(** C6: the matcher of optionalOr(p, d) returns exactly two items, a
    Schedule of p at index whose handler returns the Match of p as it is,
    and a Success with span (index, index) and value d; optional(p) is
    optionalOr(p, undefined), so when p reports a Success ending at e, the
    handler yields that Success ending at e next to the Success ending at
    index that the matcher returned at once. *)
Theorem optionalOr_spec (p : Parser) (d : Value) (stream : Sequence)
    (index : Z) (heap : Heap) :
  (exists handler,
     optionalOr_matcher p d stream index heap
       = Returned [ ISchedule p index handler;
                    IMatch (MSuccess (mkSuccess (mkSpan index index) d)) ]
           heap
     /\ forall m h, call handler m h = Returned [ IMatch m ] h)
  /\ optional_matcher p = optionalOr_matcher p VUndefined
  /\ (forall s h,
        exists items handler branch,
          optional_matcher p stream index heap = Returned items heap
          /\ In (ISchedule p index handler) items
          /\ call handler (MSuccess s) h = Returned branch h
          /\ In (IMatch (MSuccess s)) branch
          /\ In (IMatch (MSuccess
                           (mkSuccess (mkSpan index index) VUndefined)))
               items).
Proof.
  split; [|split].
  - exists defer_handler. split; [reflexivity|]. intros m h. reflexivity.
  - reflexivity.
  - intros s h.
    exists [ ISchedule p index defer_handler;
             IMatch (MSuccess (mkSuccess (mkSpan index index) VUndefined)) ],
      defer_handler, [ IMatch (MSuccess s) ].
    split; [reflexivity|]. simpl. auto 6.
Qed.

(** ** Lookaround: [check] and [not] *)

(** C7: the matcher of check(P) schedules P at index; for each Match that P
    reports, the handler returns a Success exactly when that Match is a
    Success; the Success it returns has span (index, index) and the value
    of P's Success; a Failure of P is returned unchanged.  So whatever set
    of matches P reports at index, check(P) emits a Success if and only if
    P reported one. *)
Theorem check_spec (p : Parser) (stream : Sequence) (index : Z)
    (heap : Heap) :
  exists handler,
    check_matcher p stream index heap
      = Returned [ ISchedule p index handler ] heap
    /\ (forall m h,
          exists r, call handler m h = Returned r h
                    /\ has_success r = is_success m)
    /\ (forall reported : Match -> Prop,
          (exists s, emits reported handler (MSuccess s))
          <-> (exists s, reported (MSuccess s)))
    /\ (forall s h,
          call handler (MSuccess s) h
            = Returned [ IMatch (MSuccess
                           (mkSuccess (mkSpan index index) (value s))) ] h)
    /\ (forall failure h,
          call handler (MFailure failure) h
            = Returned [ IMatch (MFailure failure) ] h).
Proof.
  exists (check_handler index). split; [reflexivity|].
  split; [|split; [|split]]; try (intros; reflexivity).
  - intros [s|failure] h; eexists; split; reflexivity.
  - intros reported. split.
    + intros [s ([s0|failure] & h & r & h' & Hrep & Hcall & Hin)].
      * exists s0. exact Hrep.
      * injection Hcall as <- _. only_item Hin. discriminate Hin.
    + intros [s Hrep].
      exists (mkSuccess (mkSpan index index) (value s)).
      unfold emits. eexists (MSuccess s), [], _, [].
      split; [exact Hrep|]. split; [reflexivity|]. left. reflexivity.
Qed.


(** ** Repetition: [repeat] *)

Lemma lt_number_ge_number (count : Z) (bound : number) :
  lt_number count bound = negb (ge_number count bound).
Proof.
  destruct bound as [n|]; simpl; [|reflexivity].
  destruct (count <? n) eqn:E1, (n <=? count) eqn:E2; try reflexivity; lia.
Qed.

(** The items of [next] at a state, written out. *)
Lemma next_items (parser child : Parser) (min max : number)
    (index count : Z) (accumulator : list Value) (pos : Z) :
  next parser child min max index count accumulator pos
  = (if ge_number count min
     then [ IMatch (MSuccess
                      (mkSuccess (mkSpan index pos) (VArray accumulator))) ]
     else [])
    ++ (if lt_number count max
        then [ ISchedule child pos
                 (repeat_handler parser child min max index
                    count accumulator) ]
        else []).
Proof.
  unfold next.
  destruct (ge_number count min), (lt_number count max); reflexivity.
Qed.

(** Every handler that [repeat] schedules is its own, at the state where it
    was scheduled. *)
Lemma next_schedules (parser child : Parser) (min max : number)
    (index count : Z) (accumulator : list Value) (pos : Z)
    (p : Parser) (i : Z) (handler : Handler) :
  In (ISchedule p i handler)
     (next parser child min max index count accumulator pos) ->
  p = child /\ i = pos
  /\ handler = repeat_handler parser child min max index count accumulator
  /\ lt_number count max = true.
Proof.
  rewrite next_items. intros Hin. apply in_app_or in Hin.
  destruct Hin as [Hin|Hin].
  - destruct (ge_number count min); [|destruct Hin].
    only_item Hin. discriminate Hin.
  - destruct (lt_number count max); [|destruct Hin].
    only_item Hin. injection Hin as <- <- <-. auto.
Qed.

(** C4: at every state of repeat(p, {min, max}), when the child reports a
    Success with span.start == span.end to the handler that repeat
    scheduled, the call throws an error whose message begins "Repeating
    parser isn't making progress at position": it returns no match list,
    so no Failure. *)
Theorem repeat_no_progress (parser p : Parser) (options : RepeatOptions)
    (index count : Z) (accumulator : list Value) (pos : Z)
    (child : Parser) (i : Z) (handler : Handler)
    (s : MatchSuccess) (heap : Heap) :
  In (ISchedule child i handler)
     (next parser p (repeat_min options) (repeat_max options) index
        count accumulator pos) ->
  start (sspan s) = end_ (sspan s) ->
  call handler (MSuccess s) heap
    = Thrown ("Repeating parser isn't making progress at position "
              ++ number_toString (start (sspan s)) ++ ": " ++ toString p)
  /\ String.prefix "Repeating parser isn't making progress at position"
       ("Repeating parser isn't making progress at position "
        ++ number_toString (start (sspan s)) ++ ": " ++ toString p)
     = true.
Proof.
  intros Hin Hzero. apply next_schedules in Hin.
  destruct Hin as (-> & -> & -> & _). split; [|reflexivity].
  simpl. unfold process. apply Z.eqb_eq in Hzero. rewrite Hzero.
  reflexivity.
Qed.

(** ** Alternation: the choice of the best failure *)

Lemma replaces_outranks (f best : MatchFailure) :
  replaces f best = true <-> outranks f best.
Proof.
  unfold replaces, outranks.
  rewrite orb_true_iff, andb_true_iff, Z.ltb_lt, Z.eqb_eq, Z.ltb_lt.
  reflexivity.
Qed.

Lemma outranks_trans (f g h : MatchFailure) :
  outranks f g -> outranks g h -> outranks f h.
Proof. unfold outranks. lia. Qed.

Lemma outranks_asym (f g : MatchFailure) : outranks f g -> ~ outranks g f.
Proof. unfold outranks. lia. Qed.

Lemma not_outranks_trans (f g h : MatchFailure) :
  outranks f g -> ~ outranks h g -> outranks f h.
Proof. unfold outranks. lia. Qed.

(** The loop of [findBestFail], from any point on: [best] is the current
    choice, [earlier] came before it and [mid] after it. *)
Lemma forEach_best (later earlier mid : list MatchFailure)
    (best : MatchFailure) :
  Forall (fun g => outranks best g) earlier ->
  Forall (fun g => ~ outranks g best) mid ->
  exists earlier' best' later',
    earlier ++ best :: mid ++ later = earlier' ++ best' :: later'
    /\ fold_left (fun best f => if replaces f best then f else best)
         later best = best'
    /\ Forall (fun g => outranks best' g) earlier'
    /\ Forall (fun g => ~ outranks g best') later'.
Proof.
  revert earlier mid best.
  induction later as [|f later IH]; intros earlier mid best Hearlier Hmid.
  - exists earlier, best, mid. rewrite app_nil_r. auto.
  - simpl. destruct (replaces f best) eqn:E.
    + apply replaces_outranks in E.
      destruct (IH (earlier ++ best :: mid) [] f) as (e' & b' & l' & Heq & Hfold & He' & Hl').
      * apply Forall_app. split; [|constructor].
        -- eapply Forall_impl; [exact Hearlier|].
           intros g Hg. eapply outranks_trans; eassumption.
        -- exact E.
        -- eapply Forall_impl; [exact Hmid|].
           intros g Hg. eapply not_outranks_trans; eassumption.
      * constructor.
      * exists e', b', l'. split; [|auto].
        rewrite <- Heq. simpl. rewrite <- app_assoc. reflexivity.
    + destruct (IH earlier (mid ++ [f]) best) as (e' & b' & l' & Heq & Hfold & He' & Hl').
      * exact Hearlier.
      * apply Forall_app. split; [exact Hmid|]. constructor; [|constructor].
        intros Hout. apply replaces_outranks in Hout. congruence.
      * exists e', b', l'. split; [|auto].
        rewrite <- Heq. rewrite <- app_assoc. reflexivity.
Qed.

Lemma replaces_irrefl (f : MatchFailure) : replaces f f = false.
Proof.
  destruct (replaces f f) eqn:E; [|reflexivity].
  apply replaces_outranks in E. unfold outranks in E. lia.
Qed.

(** The choice on a list that is not empty, with its place in the list. *)
Lemma pickBest_cons (first : MatchFailure) (rest : list MatchFailure) :
  exists earlier best later,
    first :: rest = earlier ++ best :: later
    /\ pickBest (first :: rest) = Some best
    /\ Forall (fun g => outranks best g) earlier
    /\ Forall (fun g => ~ outranks g best) later.
Proof.
  destruct (forEach_best rest [] [] first) as (e & b & l & Heq & Hfold & He & Hl);
    [constructor|constructor|].
  exists e, b, l. split; [exact Heq|]. split; [|auto].
  unfold pickBest. simpl. rewrite replaces_irrefl, Hfold. reflexivity.
Qed.

Lemma pickBest_best_of (first : MatchFailure) (rest : list MatchFailure) :
  exists best,
    pickBest (first :: rest) = Some best /\ best_of (first :: rest) best.
Proof.
  destruct (pickBest_cons first rest) as (e & b & l & Heq & Hpick & He & Hl).
  exists b. split; [exact Hpick|]. rewrite Heq. split.
  - apply in_or_app. right. left. reflexivity.
  - intros f Hin. apply in_app_or in Hin. destruct Hin as [Hin|[<-|Hin]].
    + rewrite Forall_forall in He. apply outranks_asym, He.
      apply list_elem_of_In, Hin.
    + unfold outranks. lia.
    + rewrite Forall_forall in Hl. apply Hl. apply list_elem_of_In, Hin.
Qed.

Lemma findBestFail_cons (parser : Parser) (index : Z)
    (first : MatchFailure) (rest : list MatchFailure) (heap : Heap) :
  exists best,
    pickBest (first :: rest) = Some best
    /\ findBestFail parser index (first :: rest) heap
       = Returned [ IMatch (MFailure (summary parser index best)) ] heap.
Proof.
  destruct (pickBest_cons first rest) as (e & b & l & _ & Hpick & _).
  exists b. split; [exact Hpick|].
  unfold findBestFail, summary. rewrite Hpick.
  destruct ((start (fspan b) =? index) && (priority b =? 0)); reflexivity.
Qed.

(** C10: in [findBestFail], the failure chosen from a list of collected
    failures is the first one of the list that no other outranks: every
    failure recorded before it has a lower priority, or the same priority
    and an earlier span.start, and no failure recorded after it has a higher
    priority, or the same priority and a later span.start.  Among failures
    that share the maximal priority and, with it, the maximal span.start,
    the earliest recorded is the choice. *)
Theorem findBestFail_first_wins (parser : Parser) (index : Z)
    (first : MatchFailure) (rest : list MatchFailure) (heap : Heap) :
  exists earlier best later,
    first :: rest = earlier ++ best :: later
    /\ pickBest (first :: rest) = Some best
    /\ findBestFail parser index (first :: rest) heap
       = Returned [ IMatch (MFailure (summary parser index best)) ] heap
    /\ Forall (fun g => outranks best g) earlier
    /\ Forall (fun g => ~ outranks g best) later
    /\ (forall g,
          priority g = priority best ->
          start (fspan g) = start (fspan best) ->
          replaces g best = false).
Proof.
  destruct (pickBest_cons first rest) as (e & b & l & Heq & Hpick & He & Hl).
  exists e, b, l. split; [exact Heq|]. split; [exact Hpick|].
  split; [|split; [exact He|split; [exact Hl|]]].
  - destruct (findBestFail_cons parser index first rest heap) as (b' & Hp & Hf).
    rewrite Hpick in Hp. injection Hp as <-. exact Hf.
  - intros g Hprio Hstart. unfold replaces.
    rewrite Hprio, Hstart, !Z.ltb_irrefl, andb_false_r. reflexivity.
Qed.

(** ** Alternation: counting the failures *)

Lemma failures_app (r1 r2 : list Report) :
  failures (r1 ++ r2) = failures r1 ++ failures r2.
Proof.
  induction r1 as [|[k [s|f]] r1 IH]; simpl; [reflexivity|exact IH|].
  rewrite IH. reflexivity.
Qed.

Lemma alt_matcher_returns (parser : Parser) (children : list Parser)
    (stream : Sequence) (index : Z) (heap : Heap) :
  alt_matcher parser children stream index heap
  = Returned
      (rev (map (fun p =>
                   ISchedule p index
                     (alt_handler parser children index (length heap)))
              children))
      (heap ++ [ mkAltCell 0 [] ])
  /\ cell_after (heap ++ [ mkAltCell 0 [] ]) (length heap) [].
Proof.
  split; [reflexivity|].
  unfold cell_after. simpl. apply list_lookup_middle. reflexivity.
Qed.

(** One report of a Success: returned as it is, the cell untouched. *)
Lemma alt_call_success (parser : Parser) (children : list Parser)
    (index : Z) (cell : nat) (s : MatchSuccess) (heap : Heap) :
  call (alt_handler parser children index cell) (MSuccess s) heap
  = Returned [ IMatch (MSuccess s) ] heap.
Proof. reflexivity. Qed.

(** One report of a Failure: it is recorded, and the summary is returned
    when the counter reaches the number of children. *)
Lemma alt_call_failure (parser : Parser) (children : list Parser)
    (index : Z) (cell : nat) (sofar : list Report) (k : nat)
    (failure : MatchFailure) (heap : Heap) :
  cell_after heap cell sofar ->
  exists out heap',
    call (alt_handler parser children index cell) (MFailure failure) heap
      = Returned out heap'
    /\ cell_after heap' cell (sofar ++ [ (k, MFailure failure) ])
    /\ (length (failures sofar) + 1 = length children ->
        exists best,
          pickBest (failures (sofar ++ [ (k, MFailure failure) ]))
            = Some best
          /\ out = [ IMatch (MFailure (summary parser index best)) ])%nat
    /\ (length (failures sofar) + 1 <> length children -> out = [])%nat.
Proof.
  intros Hcell. unfold cell_after in *.
  assert (Hlt : (cell < length heap)%nat) by (eapply lookup_lt_Some; eauto).
  simpl. unfold alt_on_child, bind, read, write. rewrite Hcell. simpl.
  rewrite failures_app. simpl.
  set (fails' := failures sofar ++ [ failure ]).
  assert (Hlen : length fails' = S (length (failures sofar))).
  { unfold fails'. rewrite length_app. simpl. lia. }
  assert (Hcell' :
    <[cell := mkAltCell (Z.of_nat (length (failures sofar)) + 1) fails']> heap
      !! cell
    = Some (mkAltCell (Z.of_nat (length fails')) fails')).
  { rewrite list_lookup_insert_eq by exact Hlt. do 2 f_equal. lia. }
  destruct (Z.of_nat (length (failures sofar)) + 1
            =? Z.of_nat (length children)) eqn:E1.
  - apply Z.eqb_eq in E1.
    replace (Z.of_nat (length (failures sofar)) + 1
             =? Z.of_nat (length fails')) with true
      by (symmetry; apply Z.eqb_eq; lia).
    simpl.
    destruct (failures sofar) as [|f0 fs] eqn:Ef.
    + destruct (findBestFail_cons parser index failure []
                  (<[cell := mkAltCell (0 + 1) [ failure ]]> heap))
        as (best & Hpick & Hfind).
      simpl in *. eexists _, _. split; [exact Hfind|].
      split; [exact Hcell'|]. split; [|lia].
      intros _. exists best. split; [exact Hpick|reflexivity].
    + destruct (findBestFail_cons parser index f0 (fs ++ [ failure ])
                  (<[cell := mkAltCell (Z.of_nat (length (f0 :: fs)) + 1)
                               fails']> heap))
        as (best & Hpick & Hfind).
      unfold fails' in *. simpl in *. eexists _, _. split; [exact Hfind|].
      split; [exact Hcell'|]. split; [|lia].
      intros _. exists best. split; [exact Hpick|reflexivity].
  - apply Z.eqb_neq in E1. simpl. eexists _, _. split; [reflexivity|].
    split; [exact Hcell'|]. split; [lia|]. intros _. reflexivity.
Qed.

(** The store between the reports: a call of another handler leaves the
    cell of this activation as it is, and so does another activation of
    [alt], which allocates past it. *)
Lemma call_frame (handler : Handler) (m : Match) (heap heap' : Heap)
    (out : MatchResult) (cell : nat) :
  (forall parser children index,
     handler <> alt_handler parser children index cell) ->
  call handler m heap = Returned out heap' ->
  heap' !! cell = heap !! cell.
Proof.
  intros Hother Hcall. destruct handler; simpl in Hcall;
    try (injection Hcall as _ <-; reflexivity).
  - destruct m as [s|failure]; [injection Hcall as _ <-; reflexivity|].
    assert (Hne : cell0 <> cell).
    { intros ->. eapply Hother. reflexivity. }
    unfold alt_on_child, bind, read, write in Hcall.
    destruct (heap !! cell0) as [c|]; [|discriminate]. simpl in Hcall.
    match type of Hcall with
    | (if ?b then _ else _) _ = _ => destruct b
    end.
    + unfold findBestFail in Hcall.
      destruct (pickBest _); [|discriminate].
      match type of Hcall with
      | (if ?b then _ else _) _ = _ => destruct b
      end; injection Hcall as _ <-; apply list_lookup_insert_ne, Hne.
    + injection Hcall as _ <-. apply list_lookup_insert_ne, Hne.
  - unfold process in Hcall. destruct m as [s|failure].
    + destruct (start (sspan s) =? end_ (sspan s)); [discriminate|].
      injection Hcall as _ <-. reflexivity.
    + destruct (lt_number count0 min0); injection Hcall as _ <-; reflexivity.
Qed.

Lemma alt_matcher_frame (parser : Parser) (children : list Parser)
    (stream : Sequence) (index : Z) (heap heap' : Heap)
    (items : MatchResult) (cell : nat) :
  (cell < length heap)%nat ->
  alt_matcher parser children stream index heap = Returned items heap' ->
  heap' !! cell = heap !! cell.
Proof.
  intros Hlt Hrun. injection Hrun as _ <-. apply lookup_app_l, Hlt.
Qed.

(** A run of reports: every call returns, the cell follows, and no summary
    comes out as long as the failures stay fewer than the children. *)
Lemma deliver_alt (parser : Parser) (children : list Parser) (index : Z)
    (cell : nat) (more sofar : list Report) (heap : Heap) :
  cell_after heap cell sofar ->
  exists outs heap',
    deliver (alt_handler parser children index cell) (map snd more) heap
      = Returned outs heap'
    /\ cell_after heap' cell (sofar ++ more)
    /\ ((length (failures (sofar ++ more)) < length children)%nat ->
        Forall (fun out => has_failure out = false) outs).
Proof.
  revert sofar heap.
  induction more as [|[k m] more IH]; intros sofar heap Hcell.
  - exists [], heap. rewrite app_nil_r. split; [reflexivity|].
    split; [exact Hcell|]. intros _. constructor.
  - assert (Hsplit : sofar ++ (k, m) :: more = (sofar ++ [ (k, m) ]) ++ more)
      by (rewrite <- app_assoc; reflexivity).
    rewrite Hsplit. clear Hsplit.
    cbn [map snd deliver]. unfold bind at 1. destruct m as [s|failure].
    + rewrite alt_call_success.
      destruct (IH (sofar ++ [ (k, MSuccess s) ]) heap)
        as (outs & heap' & Hrun & Hcell' & Hquiet).
      { unfold cell_after in *. rewrite failures_app. simpl.
        rewrite app_nil_r. exact Hcell. }
      unfold bind. rewrite Hrun. eexists _, _. split; [reflexivity|].
      split; [exact Hcell'|]. intros Hfew. constructor; [reflexivity|].
      apply Hquiet, Hfew.
    + destruct (alt_call_failure parser children index cell sofar k failure
                  heap Hcell)
        as (out & heap1 & Hcall & Hcell1 & _ & Hnone).
      rewrite Hcall.
      destruct (IH (sofar ++ [ (k, MFailure failure) ]) heap1 Hcell1)
        as (outs & heap' & Hrun & Hcell' & Hquiet).
      unfold bind. rewrite Hrun. eexists _, _. split; [reflexivity|].
      split; [exact Hcell'|]. intros Hfew. constructor; [|apply Hquiet, Hfew].
      rewrite Hnone; [reflexivity|].
      rewrite !failures_app, !length_app in Hfew. simpl in Hfew. lia.
Qed.

(** Alternatives that fail at most once each, out of [n]: as many failures
    as alternatives means that every alternative has failed. *)
Lemma all_failed_iff (n : nat) (ks : list nat) :
  List.NoDup ks -> Forall (fun j => (j < n)%nat) ks ->
  (length ks <= n)%nat
  /\ (length ks = n <-> forall j, (j < n)%nat -> In j ks).
Proof.
  intros Hnodup Hbound.
  assert (Hincl : incl ks (seq 0 n)).
  { intros j Hj. apply in_seq. rewrite Forall_forall in Hbound.
    specialize (Hbound j (proj2 (list_elem_of_In _ _) Hj)). lia. }
  assert (Hle : (length ks <= n)%nat).
  { rewrite <- (length_seq n 0). apply List.NoDup_incl_length; assumption. }
  split; [exact Hle|]. split.
  - intros Hlen j Hj.
    assert (Hback : incl (seq 0 n) ks).
    { apply (List.NoDup_length_incl Hnodup); [|exact Hincl].
      rewrite length_seq. lia. }
    apply Hback, in_seq. lia.
  - intros Hall.
    assert (Hge : (length (seq 0 n) <= length ks)%nat).
    { apply List.NoDup_incl_length; [apply List.seq_NoDup|].
      intros j Hj. apply Hall. apply in_seq in Hj. lia. }
    rewrite length_seq in Hge. lia.
Qed.

Lemma pickBest_Some (fs : list MatchFailure) (best : MatchFailure) :
  pickBest fs = Some best -> best_of fs best.
Proof.
  destruct fs as [|first rest]; [discriminate|]. intros Hpick.
  destruct (pickBest_best_of first rest) as (best' & Hpick' & Hbest).
  rewrite Hpick in Hpick'. injection Hpick' as <-. exact Hbest.
Qed.



(** ** Repetition, followed over several matches *)

Lemma lt_number_mono (c c' : Z) (bound : number) :
  c <= c' -> lt_number c' bound = true -> lt_number c bound = true.
Proof.
  destruct bound as [n|]; simpl; [|reflexivity].
  rewrite !Z.ltb_lt. lia.
Qed.

Lemma last_end_cons (pos : Z) (s : MatchSuccess) (ss : list MatchSuccess) :
  last_end pos (s :: ss) = last_end (end_ (sspan s)) ss.
Proof.
  unfold last_end. simpl map.
  generalize (end_ (sspan s)) (map (fun s0 => end_ (sspan s0)) ss).
  intros x l. revert x pos.
  induction l as [|y l IH]; intros x pos; [reflexivity|].
  change (List.last (y :: l) pos = List.last (y :: l) x).
  rewrite (IH y pos), (IH y x). reflexivity.
Qed.

(** The answer of the one Schedule of a state of [repeat]. *)
Lemma answer_next (parser child : Parser) (min max : number)
    (index count : Z) (accumulator : list Value) (pos : Z) (m : Match)
    (heap : Heap) :
  answer (next parser child min max index count accumulator pos) m heap
  = if lt_number count max
    then match process parser child min max index m count accumulator heap
         with
         | Returned out heap' => Returned (out ++ []) heap'
         | Thrown e => Thrown e
         end
    else Returned [] heap.
Proof.
  rewrite next_items.
  destruct (ge_number count min), (lt_number count max); reflexivity.
Qed.

(** Matches that consume something, as many as [max] allows: they bring
    [repeat] from one state to the state that has counted them, collected
    their values in order and stands where the last one ended. *)
Lemma feed_next (parser child : Parser) (min max : number) (index : Z)
    (ss : list MatchSuccess) (count : Z) (accumulator : list Value)
    (pos : Z) (heap : Heap) :
  Forall (fun s => start (sspan s) <> end_ (sspan s)) ss ->
  (ss <> [] ->
   lt_number (count + Z.of_nat (length ss) - 1) max = true) ->
  feed (next parser child min max index count accumulator pos)
    (map MSuccess ss) heap
  = Returned
      (next parser child min max index (count + Z.of_nat (length ss))
         (accumulator ++ map value ss) (last_end pos ss))
      heap.
Proof.
  revert count accumulator pos.
  induction ss as [|s ss IH]; intros count accumulator pos Hprog Hmax.
  - simpl. rewrite Z.add_0_r, app_nil_r. reflexivity.
  - apply Forall_cons in Hprog. destruct Hprog as [Hs Hprog].
    cbn [map feed]. unfold bind. rewrite answer_next.
    rewrite (lt_number_mono count (count + Z.of_nat (length (s :: ss)) - 1))
      by (try apply Hmax; try discriminate; simpl length; lia).
    unfold process. apply Z.eqb_neq in Hs. rewrite Hs. unfold ret.
    rewrite app_nil_r, last_end_cons.
    rewrite IH.
    + f_equal. f_equal; [simpl length; lia|].
      rewrite <- app_assoc. reflexivity.
    + exact Hprog.
    + intros Hne. eapply lt_number_mono; [|apply Hmax; discriminate].
      simpl length. lia.
Qed.

Lemma feed_app (r : MatchResult) (ms1 ms2 : list Match) (heap : Heap) :
  feed r (ms1 ++ ms2) heap
  = match feed r ms1 heap with
    | Returned r' heap' => feed r' ms2 heap'
    | Thrown e => Thrown e
    end.
Proof.
  revert r heap. induction ms1 as [|m ms1 IH]; intros r heap; [reflexivity|].
  cbn [app feed]. unfold bind. destruct (answer r m heap); [apply IH|].
  reflexivity.
Qed.

(** C5: repeat(p, options) started at index stands, after the matches ss of
    p, at the state with count = their number, acc = their values in order
    and pos = the end of the last one.  With min = options.min || 0, the
    result at that state holds the candidate Success with span (index, pos)
    and value acc if and only if count >= min, and no other match; and when
    p, scheduled there, reports a Failure, repeat returns exactly one
    Failure with span (index, failure.span.start) and message "Expected " +
    description of the repeat parser if count < min, and nothing if
    count >= min. *)
Theorem repeat_emits (parser p : Parser) (options : RepeatOptions)
    (stream : Sequence) (index : Z) (ss : list MatchSuccess)
    (failure : MatchFailure) (heap : Heap) :
  Forall (fun s => start (sspan s) <> end_ (sspan s)) ss ->
  (ss <> [] ->
   lt_number (Z.of_nat (length ss) - 1) (or_number (max options) Infinity)
   = true) ->
  exists r0 r,
    repeat_matcher parser p options stream index heap = Returned r0 heap
    /\ feed r0 (map MSuccess ss) heap = Returned r heap
    /\ (forall m,
          In (IMatch m) r
          <-> ge_number (Z.of_nat (length ss))
                (or_number (min options) (Num 0)) = true
              /\ m = MSuccess (mkSuccess (mkSpan index (last_end index ss))
                                 (VArray (map value ss))))
    /\ (lt_number (Z.of_nat (length ss)) (or_number (max options) Infinity)
        = true ->
        feed r0 (map MSuccess ss ++ [ MFailure failure ]) heap
        = Returned
            (if lt_number (Z.of_nat (length ss))
                  (or_number (min options) (Num 0))
             then [ IMatch (MFailure
                      (mkFailure (mkSpan index (start (fspan failure)))
                         ("Expected " ++ description parser) None 0)) ]
             else [])
            heap)
    /\ lt_number (Z.of_nat (length ss)) (or_number (min options) (Num 0))
       = negb (ge_number (Z.of_nat (length ss))
                 (or_number (min options) (Num 0))).
Proof.
  intros Hprog Hmax.
  change (or_number (max options) Infinity) with (repeat_max options) in *.
  change (or_number (min options) (Num 0)) with (repeat_min options).
  pose proof (feed_next parser p (repeat_min options) (repeat_max options)
                index ss 0 [] index heap Hprog Hmax) as Hfeed.
  rewrite Z.add_0_l in Hfeed. cbn [app] in Hfeed.
  eexists _, _. split; [reflexivity|]. split; [exact Hfeed|].
  split; [|split; [|apply lt_number_ge_number]].
  - intros m. rewrite next_items. split.
    + intros Hin. apply in_app_or in Hin. destruct Hin as [Hin|Hin].
      * destruct (ge_number _ _); [|destruct Hin].
        only_item Hin. injection Hin as <-. auto.
      * destruct (lt_number (Z.of_nat (length ss)) (repeat_max options));
          [only_item Hin; discriminate Hin|destruct Hin].
    + intros [-> ->]. left. reflexivity.
  - intros Hlt. rewrite feed_app, Hfeed. cbn [feed]. unfold bind.
    rewrite answer_next, Hlt. unfold process, new_MatchFailure, ret.
    destruct (lt_number (Z.of_nat (length ss)) (repeat_min options));
      reflexivity.
Qed.

(** C9: with options {max: 0} the bound of repeat is options.max || Infinity
    = Infinity.  The matcher returns what it returns with max Infinity and
    with max left out; count < max holds at every count; and after any
    number of matches of p that each consume something, the first state
    included, repeat schedules p again, where the last match ended, with a
    handler whose bound is Infinity. *)
Theorem repeat_max_zero_unbounded (parser p : Parser)
    (minimum : option number) (stream : Sequence) (index : Z)
    (ss : list MatchSuccess) (heap : Heap) :
  Forall (fun s => start (sspan s) <> end_ (sspan s)) ss ->
  exists r0 r,
    repeat_matcher parser p (mkOptions minimum (Some (Num 0))) stream index
      heap = Returned r0 heap
    /\ repeat_matcher parser p (mkOptions minimum (Some Infinity)) stream
         index heap = Returned r0 heap
    /\ repeat_matcher parser p (mkOptions minimum None) stream index heap
       = Returned r0 heap
    /\ feed r0 (map MSuccess ss) heap = Returned r heap
    /\ In (ISchedule p (last_end index ss)
             (repeat_handler parser p (or_number minimum (Num 0)) Infinity
                index (Z.of_nat (length ss)) (map value ss))) r
    /\ (forall count,
          lt_number count (repeat_max (mkOptions minimum (Some (Num 0))))
          = true).
Proof.
  intros Hprog.
  pose proof (feed_next parser p (or_number minimum (Num 0)) Infinity
                index ss 0 [] index heap Hprog (fun _ => eq_refl)) as Hfeed.
  rewrite Z.add_0_l in Hfeed. cbn [app] in Hfeed.
  eexists _, _. split; [reflexivity|]. split; [reflexivity|].
  split; [reflexivity|]. split; [exact Hfeed|]. split; [|reflexivity].
  rewrite next_items. apply in_or_app. right. left. reflexivity.
Qed.

(** X1: repeat(p, options), started at index and given one after the other
    matches of p that each consume something, no more of them than max
    allows, stands after them in the state that has counted them: its
    result holds the candidate Success with span (index, end of the last
    match) and the values of all the matches in order exactly when their
    number is at least min, and it schedules p again, at the end of the
    last match, exactly when their number is below max. *)
Theorem repeat_accumulates (parser p : Parser) (options : RepeatOptions)
    (stream : Sequence) (index : Z) (ss : list MatchSuccess) (heap : Heap) :
  Forall (fun s => start (sspan s) <> end_ (sspan s)) ss ->
  (ss <> [] ->
   lt_number (Z.of_nat (length ss) - 1) (repeat_max options) = true) ->
  exists r0 r,
    repeat_matcher parser p options stream index heap = Returned r0 heap
    /\ feed r0 (map MSuccess ss) heap = Returned r heap
    /\ (In (IMatch (MSuccess
                      (mkSuccess (mkSpan index (last_end index ss))
                         (VArray (map value ss))))) r
        <-> ge_number (Z.of_nat (length ss)) (repeat_min options) = true)
    /\ has_success r = ge_number (Z.of_nat (length ss)) (repeat_min options)
    /\ ((exists handler, In (ISchedule p (last_end index ss) handler) r)
        <-> lt_number (Z.of_nat (length ss)) (repeat_max options) = true)
    /\ (forall child i handler,
          In (ISchedule child i handler) r ->
          child = p /\ i = last_end index ss).
Proof.
  intros Hprog Hmax.
  exists (next parser p (repeat_min options) (repeat_max options) index
            0 [] index),
    (next parser p (repeat_min options) (repeat_max options) index
       (Z.of_nat (length ss)) (map value ss) (last_end index ss)).
  split; [reflexivity|]. split; [rewrite feed_next; auto|].
  split; [|split; [|split]].
  - rewrite next_items. split.
    + intros Hin. apply in_app_or in Hin. destruct Hin as [Hin|Hin].
      * destruct (ge_number _ _); [reflexivity|destruct Hin].
      * destruct (lt_number (Z.of_nat (length ss)) (repeat_max options));
          [only_item Hin; discriminate Hin|destruct Hin].
    + intros ->. left. reflexivity.
  - rewrite next_items.
    destruct (ge_number _ _),
      (lt_number (Z.of_nat (length ss)) (repeat_max options)); reflexivity.
  - split.
    + intros [handler Hin]. apply next_schedules in Hin. apply Hin.
    + intros Hlt. rewrite next_items, Hlt. eexists. apply in_or_app.
      right. left. reflexivity.
  - intros child i handler Hin. apply next_schedules in Hin.
    destruct Hin as (-> & -> & _). auto.
Qed.

Lemma feed_next_returned (parser child : Parser) (min max : number)
    (index : Z) (ss : list MatchSuccess) (count : Z)
    (accumulator : list Value) (pos : Z) (heap heap' : Heap)
    (r : MatchResult) :
  (ss <> [] ->
   lt_number (count + Z.of_nat (length ss) - 1) max = true) ->
  feed (next parser child min max index count accumulator pos)
    (map MSuccess ss) heap = Returned r heap' ->
  Forall (fun s => start (sspan s) <> end_ (sspan s)) ss.
Proof.
  revert count accumulator pos.
  induction ss as [|s ss IH]; intros count accumulator pos Hmax Hfeed.
  - constructor.
  - cbn [map feed] in Hfeed. unfold bind in Hfeed.
    rewrite answer_next in Hfeed.
    rewrite (lt_number_mono count (count + Z.of_nat (length (s :: ss)) - 1))
      in Hfeed by (try apply Hmax; try discriminate; simpl length; lia).
    unfold process in Hfeed.
    destruct (start (sspan s) =? end_ (sspan s)) eqn:E; [discriminate|].
    apply Z.eqb_neq in E. constructor; [exact E|].
    unfold ret in Hfeed. rewrite app_nil_r in Hfeed.
    eapply IH; [|exact Hfeed].
    intros Hne. eapply lt_number_mono; [|apply Hmax; discriminate].
    simpl length. lia.
Qed.

Lemma linked_consumes (ss : list MatchSuccess) (pos : Z) :
  linked pos ss ->
  Forall (fun s => start (sspan s) <> end_ (sspan s)) ss ->
  pos + Z.of_nat (length ss) <= last_end pos ss.
Proof.
  revert pos. induction ss as [|s ss IH]; intros pos Hlinked Hprog.
  - unfold last_end. simpl. lia.
  - destruct Hlinked as (Hstart & Hle & Hlinked).
    apply Forall_cons in Hprog. destruct Hprog as [Hs Hprog].
    rewrite last_end_cons. specialize (IH _ Hlinked Hprog).
    simpl length. lia.
Qed.

(** X2: when repeat(p, options), started at index, has taken j matches of p
    within max, each starting where the one before it ended, and no call
    has thrown, then every one of them consumed something and the last one
    ends at index + j or later: a repeat that does not throw moves on by
    at least one position per match. *)
Theorem repeat_consumes (parser p : Parser) (options : RepeatOptions)
    (stream : Sequence) (index : Z) (ss : list MatchSuccess)
    (heap heap' : Heap) (r0 r : MatchResult) :
  linked index ss ->
  (ss <> [] ->
   lt_number (Z.of_nat (length ss) - 1) (repeat_max options) = true) ->
  repeat_matcher parser p options stream index heap = Returned r0 heap ->
  feed r0 (map MSuccess ss) heap = Returned r heap' ->
  Forall (fun s => start (sspan s) < end_ (sspan s)) ss
  /\ index + Z.of_nat (length ss) <= last_end index ss.
Proof.
  intros Hlinked Hmax Hmatcher Hfeed. injection Hmatcher as <-.
  apply feed_next_returned in Hfeed; [|exact Hmax].
  split; [|apply linked_consumes; assumption].
  clear Hmax. revert index Hlinked Hfeed.
  induction ss as [|s ss IH]; intros index Hlinked Hprog; [constructor|].
  destruct Hlinked as (Hstart & Hle & Hlinked).
  apply Forall_cons in Hprog. destruct Hprog as [Hs Hprog].
  constructor; [lia|]. eapply IH; eassumption.
Qed.

(** The answer of a result that holds failures only: nothing. *)
Lemma answer_failures (r : MatchResult) (m : Match) (heap : Heap) :
  (forall item, In item r -> exists f, item = IMatch (MFailure f)) ->
  answer r m heap = Returned [] heap.
Proof.
  induction r as [|item r IH]; intros Hall; [reflexivity|].
  destruct (Hall item (or_introl eq_refl)) as [f ->]. simpl.
  apply IH. intros item' Hin. apply Hall. right. exact Hin.
Qed.

Lemma failures_no_success (r : MatchResult) :
  (forall item, In item r -> exists f, item = IMatch (MFailure f)) ->
  has_success r = false.
Proof.
  induction r as [|item r IH]; intros Hall; [reflexivity|].
  destruct (Hall item (or_introl eq_refl)) as [f ->]. simpl.
  apply IH. intros item' Hin. apply Hall. right. exact Hin.
Qed.

(** With min above max, whatever the child reports: a state of [repeat]
    within max, or failures only, and never a Success. *)
Lemma feed_min_above_max (parser child : Parser) (a b index : Z)
    (ms : list Match) (r r' : MatchResult) (heap heap' : Heap) :
  b < a ->
  (exists count accumulator pos,
     count <= b
     /\ r = next parser child (Num a) (Num b) index count accumulator pos)
  \/ (forall item, In item r -> exists f, item = IMatch (MFailure f)) ->
  feed r ms heap = Returned r' heap' ->
  has_success r' = false.
Proof.
  intros Hba. revert r heap.
  induction ms as [|m ms IH]; intros r heap Hr Hfeed.
  - injection Hfeed as <- <-.
    destruct Hr as [(count & acc & pos & Hcount & ->)|Hall];
      [|apply failures_no_success, Hall].
    rewrite next_items. simpl ge_number.
    replace (a <=? count) with false by (symmetry; apply Z.leb_gt; lia).
    destruct (lt_number count (Num b)); reflexivity.
  - cbn [feed] in Hfeed. unfold bind in Hfeed.
    destruct Hr as [(count & acc & pos & Hcount & ->)|Hall].
    + rewrite answer_next in Hfeed.
      destruct (lt_number count (Num b)) eqn:Elt.
      * simpl in Elt. apply Z.ltb_lt in Elt. unfold process in Hfeed.
        destruct m as [s|failure].
        -- destruct (start (sspan s) =? end_ (sspan s)); [discriminate|].
           unfold ret in Hfeed. rewrite app_nil_r in Hfeed.
           eapply IH; [|exact Hfeed]. left. eexists _, _, _.
           split; [|reflexivity]. lia.
        -- assert (Ha : lt_number count (Num a) = true)
             by (apply Z.ltb_lt; lia).
           rewrite Ha in Hfeed. unfold ret in Hfeed. cbn [app] in Hfeed.
           eapply IH; [|exact Hfeed]. right.
           intros item Hin. only_item Hin. subst item. eauto.
      * eapply IH; [|exact Hfeed]. right. intros item [].
    + rewrite answer_failures in Hfeed by exact Hall.
      eapply IH; [|exact Hfeed]. right. intros item [].
Qed.

(** X3: repeat(p, {min: a, max: b}) with 0 < b < a never returns a Success,
    whatever the child reports and however long the parse is followed: the
    child is asked at most b times, and fewer than a matches are no
    match. *)
Theorem repeat_min_above_max (parser p : Parser) (a b : Z)
    (stream : Sequence) (index : Z) (ms : list Match)
    (heap heap' : Heap) (r0 r : MatchResult) :
  0 < b -> b < a ->
  repeat_matcher parser p (mkOptions (Some (Num a)) (Some (Num b)))
    stream index heap = Returned r0 heap ->
  feed r0 ms heap = Returned r heap' ->
  has_success r = false.
Proof.
  intros Hb Hba Hmatcher Hfeed. injection Hmatcher as <-.
  eapply feed_min_above_max; [exact Hba| |exact Hfeed].
  left. exists 0, [], index. split; [lia|].
  unfold repeat_min, repeat_max, or_number. simpl.
  replace (a =? 0) with false by (symmetry; apply Z.eqb_neq; lia).
  replace (b =? 0) with false by (symmetry; apply Z.eqb_neq; lia).
  reflexivity.
Qed.

(** ** Alternation, more of it *)

(** X4: alt counts the Failure reports, not the alternatives that sent
    them.  Whatever reports the handlers of one activation of alt(p1..pn)
    receive, a call returns a Failure exactly when its report is a Failure
    and is the n-th Failure received since the activation.  So an
    alternative that reports two failures brings the summary out one report
    early, and after the n-th Failure no summary follows. *)
Theorem alt_counts_reports (parser : Parser) (children : list Parser)
    (stream : Sequence) (index : Z) (heap0 : Heap)
    (before : list Report) (k : nat) (m : Match) :
  exists handler heap1 outs heap2 out heap3,
    alt_matcher parser children stream index heap0
      = Returned (rev (map (fun p => ISchedule p index handler) children))
          heap1
    /\ deliver handler (map snd before) heap1 = Returned outs heap2
    /\ call handler m heap2 = Returned out heap3
    /\ (has_failure out = true
        <-> is_failure m = true
            /\ length (failures (before ++ [ (k, m) ])) = length children).
Proof.
  destruct (alt_matcher_returns parser children stream index heap0)
    as [Hmatcher Hcell0].
  destruct (deliver_alt parser children index (length heap0) before []
              _ Hcell0) as (outs & heap2 & Hrun & Hcell2 & _).
  simpl in Hcell2.
  exists (alt_handler parser children index (length heap0)).
  destruct m as [s|failure].
  - exists (heap0 ++ [ mkAltCell 0 [] ]), outs, heap2,
      [ IMatch (MSuccess s) ], heap2.
    split; [exact Hmatcher|]. split; [exact Hrun|].
    split; [reflexivity|]. simpl.
    split; [discriminate|intros [? _]; discriminate].
  - destruct (alt_call_failure parser children index (length heap0) before k
                failure heap2 Hcell2)
      as (out & heap3 & Hcall & _ & Hsum & Hnone).
    exists (heap0 ++ [ mkAltCell 0 [] ]), outs, heap2, out, heap3.
    split; [exact Hmatcher|]. split; [exact Hrun|]. split; [exact Hcall|].
    rewrite failures_app, length_app. simpl.
    destruct (Nat.eq_dec (length (failures before) + 1)%nat
                (length children)) as [Heq|Hne].
    + destruct (Hsum Heq) as (best & _ & ->). simpl. tauto.
    + rewrite (Hnone Hne). simpl.
      split; [discriminate|intros [_ ?]; contradiction].
Qed.

Lemma deliver_alt_keeps_success (parser : Parser) (children : list Parser)
    (index : Z) (cell : nat) (more sofar : list Report)
    (heap heap' : Heap) (outs : list MatchResult) :
  cell_after heap cell sofar ->
  deliver (alt_handler parser children index cell) (map snd more) heap
    = Returned outs heap' ->
  forall k s, In (k, MSuccess s) more -> In [ IMatch (MSuccess s) ] outs.
Proof.
  revert sofar heap outs.
  induction more as [|[k0 m0] more IH];
    intros sofar heap outs Hcell Hrun k s Hin; [destruct Hin|].
  cbn [map snd deliver] in Hrun. unfold bind at 1 in Hrun.
  destruct m0 as [s0|failure].
  - rewrite alt_call_success in Hrun. unfold bind in Hrun.
    destruct (deliver _ (map snd more) heap) as [outs' heap''|] eqn:Erest;
      [|discriminate].
    injection Hrun as <- <-.
    destruct Hin as [Hin|Hin].
    + injection Hin as _ ->. left. reflexivity.
    + right. eapply (IH (sofar ++ [ (k0, MSuccess s0) ])); [|exact Erest|exact Hin].
      unfold cell_after in *. rewrite failures_app. simpl.
      rewrite app_nil_r. exact Hcell.
  - destruct (alt_call_failure parser children index cell sofar k0 failure
                heap Hcell) as (out & heap1 & Hcall & Hcell1 & _).
    rewrite Hcall in Hrun. unfold bind in Hrun.
    destruct (deliver _ (map snd more) heap1) as [outs' heap''|] eqn:Erest;
      [|discriminate].
    injection Hrun as <- <-.
    destruct Hin as [Hin|Hin]; [discriminate Hin|].
    right. eapply IH; [exact Hcell1|exact Erest|exact Hin].
Qed.

Lemma failures_fewer (reports : list Report) (k : nat) (s : MatchSuccess) :
  In (k, MSuccess s) reports ->
  (length (failures reports) < length reports)%nat.
Proof.
  assert (Hle : forall r : list Report,
            (length (failures r) <= length r)%nat).
  { induction r as [|[k' [s'|f']] r IH]; simpl; lia. }
  induction reports as [|[k' [s'|f']] reports IH]; intros Hin.
  - destruct Hin.
  - simpl. specialize (Hle reports). lia.
  - destruct Hin as [Hin|Hin]; [discriminate Hin|].
    simpl. specialize (IH Hin). lia.
Qed.

(** X5: in one activation of alt(p1..pn) where every alternative reports at
    most once, as soon as one of the reports is a Success the activation
    returns no Failure at all, in whatever order the reports arrive: every
    call for a Failure returns nothing, and every Success is returned as it
    is. *)
Theorem alt_success_no_failure (parser : Parser) (children : list Parser)
    (stream : Sequence) (index : Z) (heap0 : Heap)
    (reports : list Report) (k : nat) (s : MatchSuccess) :
  List.NoDup (map fst reports) ->
  Forall (fun report => (fst report < length children)%nat) reports ->
  In (k, MSuccess s) reports ->
  exists handler heap1 outs heap2,
    alt_matcher parser children stream index heap0
      = Returned (rev (map (fun p => ISchedule p index handler) children))
          heap1
    /\ deliver handler (map snd reports) heap1 = Returned outs heap2
    /\ Forall (fun out => has_failure out = false) outs
    /\ (forall k' s',
          In (k', MSuccess s') reports -> In [ IMatch (MSuccess s') ] outs).
Proof.
  intros Hnodup Hbound Hin.
  destruct (alt_matcher_returns parser children stream index heap0)
    as [Hmatcher Hcell0].
  destruct (deliver_alt parser children index (length heap0) reports []
              _ Hcell0) as (outs & heap2 & Hrun & _ & Hquiet).
  simpl in Hquiet.
  exists (alt_handler parser children index (length heap0)),
    (heap0 ++ [ mkAltCell 0 [] ]), outs, heap2.
  split; [exact Hmatcher|]. split; [exact Hrun|]. split.
  - apply Hquiet. apply failures_fewer in Hin.
    destruct (all_failed_iff (length children) (map fst reports) Hnodup)
      as [Hle _].
    { apply Forall_fmap. exact Hbound. }
    rewrite length_map in Hle. lia.
  - intros k' s' Hin'.
    eapply deliver_alt_keeps_success; [exact Hcell0|exact Hrun|exact Hin'].
Qed.

(** X6: the failure that [findBestFail] chooses has the same priority and
    the same span.start whatever the order in which the failures were
    recorded; only which of several equally good failures is reported, and
    so its message, depends on the order. *)
Theorem findBestFail_order (fs fs' : list MatchFailure)
    (best : MatchFailure) :
  Permutation fs fs' ->
  pickBest fs = Some best ->
  exists best',
    pickBest fs' = Some best'
    /\ priority best' = priority best
    /\ start (fspan best') = start (fspan best).
Proof.
  intros Hperm Hpick.
  destruct fs' as [|first rest].
  - apply Permutation_nil_r in Hperm. subst fs. discriminate Hpick.
  - destruct (pickBest_best_of first rest) as (best' & Hpick' & Hin' & Hmax').
    apply pickBest_Some in Hpick. destruct Hpick as [Hin Hmax].
    exists best'. split; [exact Hpick'|].
    assert (H1 : ~ outranks best' best).
    { apply Hmax. eapply Permutation_in; [symmetry; exact Hperm|exact Hin']. }
    assert (H2 : ~ outranks best best').
    { apply Hmax'. eapply Permutation_in; [exact Hperm|exact Hin]. }
    unfold outranks in H1, H2. lia.
Qed.

(** A call of a handler of [alt] reads and writes its own cell only. *)
Lemma alt_call_local (parser : Parser) (children : list Parser) (index : Z)
    (cell : nat) (m : Match) (heapA heapA' heapB : Heap)
    (out : MatchResult) :
  heapA !! cell = heapB !! cell ->
  call (alt_handler parser children index cell) m heapA
    = Returned out heapA' ->
  exists heapB',
    call (alt_handler parser children index cell) m heapB
      = Returned out heapB'
    /\ heapA' !! cell = heapB' !! cell.
Proof.
  intros Hsame Hcall. destruct m as [s|failure].
  - injection Hcall as <- <-. exists heapB. split; [reflexivity|exact Hsame].
  - simpl in *. unfold alt_on_child, bind, read, write in *.
    rewrite <- Hsame. destruct (heapA !! cell) as [c|] eqn:Ecell;
      [|discriminate].
    assert (HltA : (cell < length heapA)%nat)
      by (eapply lookup_lt_Some; eauto).
    assert (HltB : (cell < length heapB)%nat)
      by (eapply lookup_lt_Some; rewrite <- Hsame; eauto).
    simpl in *.
    match type of Hcall with
    | (if ?b then _ else _) _ = _ => destruct b
    end.
    + unfold findBestFail in *. destruct (pickBest _); [|discriminate].
      match type of Hcall with
      | (if ?b then _ else _) _ = _ => destruct b
      end; injection Hcall as <- <-; eexists; (split; [reflexivity|]);
        rewrite !list_lookup_insert_eq by assumption; reflexivity.
    + injection Hcall as <- <-. eexists. split; [reflexivity|].
      rewrite !list_lookup_insert_eq by assumption. reflexivity.
Qed.

Lemma deliver_alt_local (parser : Parser) (children : list Parser)
    (index : Z) (cell : nat) (ms : list Match) (heapA heapA' heapB : Heap)
    (outs : list MatchResult) :
  heapA !! cell = heapB !! cell ->
  deliver (alt_handler parser children index cell) ms heapA
    = Returned outs heapA' ->
  exists heapB',
    deliver (alt_handler parser children index cell) ms heapB
      = Returned outs heapB'.
Proof.
  revert heapA heapB outs.
  induction ms as [|m ms IH]; intros heapA heapB outs Hsame Hrun.
  - injection Hrun as <- <-. exists heapB. reflexivity.
  - cbn [deliver] in *. unfold bind at 1 in Hrun. unfold bind at 1.
    destruct (call _ m heapA) as [out heapA1|] eqn:Ecall; [|discriminate].
    destruct (alt_call_local _ _ _ _ _ _ _ heapB _ Hsame Ecall)
      as (heapB1 & -> & Hsame1).
    unfold bind in *.
    destruct (deliver _ ms heapA1) as [outs' heapA2|] eqn:Erest;
      [|discriminate].
    injection Hrun as <- <-.
    destruct (IH _ heapB1 _ Hsame1 Erest) as (heapB2 & ->).
    eexists. reflexivity.
Qed.

Lemma deliver_frame (handler : Handler) (ms : list Match)
    (heap heap' : Heap) (outs : list MatchResult) (cell : nat) :
  (forall parser children index,
     handler <> alt_handler parser children index cell) ->
  deliver handler ms heap = Returned outs heap' ->
  heap' !! cell = heap !! cell.
Proof.
  intros Hother. revert heap outs.
  induction ms as [|m ms IH]; intros heap outs Hrun.
  - injection Hrun as _ <-. reflexivity.
  - cbn [deliver] in Hrun. unfold bind at 1 in Hrun.
    destruct (call handler m heap) as [out heap1|] eqn:Ecall; [|discriminate].
    unfold bind in Hrun.
    destruct (deliver handler ms heap1) as [outs' heap2|] eqn:Erest;
      [|discriminate].
    injection Hrun as _ <-.
    rewrite (IH _ _ Erest). eapply call_frame; eassumption.
Qed.

(** X7: two activations of alt, even of the same parser at the same index,
    count apart: each gets handlers with a cell of its own, and what the
    handlers of one return for their reports is the same whether or not
    the other activation has received reports before. *)
Theorem alt_activations_independent (parserA parserB : Parser)
    (childrenA childrenB : list Parser) (stream : Sequence)
    (indexA indexB : Z) (heap0 : Heap) (msA msB : list Match) :
  exists handlerA handlerB heap1 heap2,
    alt_matcher parserA childrenA stream indexA heap0
      = Returned
          (rev (map (fun p => ISchedule p indexA handlerA) childrenA))
          heap1
    /\ alt_matcher parserB childrenB stream indexB heap1
       = Returned
           (rev (map (fun p => ISchedule p indexB handlerB) childrenB))
           heap2
    /\ handlerA <> handlerB
    /\ (forall outsA heapA outsB heapB,
          deliver handlerA msA heap2 = Returned outsA heapA ->
          deliver handlerB msB heap2 = Returned outsB heapB ->
          (exists heap3, deliver handlerA msA heapB = Returned outsA heap3)
          /\ (exists heap3,
                deliver handlerB msB heapA = Returned outsB heap3)).
Proof.
  exists (alt_handler parserA childrenA indexA (length heap0)),
    (alt_handler parserB childrenB indexB
       (length (heap0 ++ [ mkAltCell 0 [] ]))),
    (heap0 ++ [ mkAltCell 0 [] ]),
    ((heap0 ++ [ mkAltCell 0 [] ]) ++ [ mkAltCell 0 [] ]).
  assert (Hcells : length heap0 <> length (heap0 ++ [ mkAltCell 0 [] ])).
  { rewrite length_app. simpl. lia. }
  split; [reflexivity|]. split; [reflexivity|]. split.
  - intros Heq. injection Heq as _ _ _ Hc. contradiction.
  - intros outsA heapA outsB heapB HrunA HrunB. split.
    + eapply deliver_alt_local; [|exact HrunA].
      symmetry. eapply deliver_frame; [|exact HrunB].
      intros p c i Heq. injection Heq as _ _ _ Hc. congruence.
    + eapply deliver_alt_local; [|exact HrunB].
      symmetry. eapply deliver_frame; [|exact HrunA].
      intros p c i Heq. injection Heq as _ _ _ Hc. congruence.
Qed.

(** ** Lookahead, then the parser itself *)

(** X8: chain(check(P), P, (_, v) => v) at index answers as P does: after
    the Success of check(P), which has no width, P is scheduled at index
    again, and its Success, a span that starts at index, comes out with the
    same span and value; a Failure of check(P) or of P comes out
    unchanged. *)
Theorem chain_check_then_parser (checkP P : Parser) (stream : Sequence)
    (index : Z) (s0 s : MatchSuccess) (heap : Heap) :
  start (sspan s) = index -> index <= end_ (sspan s) ->
  exists r0 m0 handler,
    chain_matcher checkP P (fun _ v => v) stream index heap
      = Returned r0 heap
    /\ call (check_handler index) (MSuccess s0) heap
       = Returned [ IMatch m0 ] heap
    /\ answer r0 m0 heap = Returned [ ISchedule P index handler ] heap
    /\ feed r0 [ m0; MSuccess s ] heap = Returned [ IMatch (MSuccess s) ] heap
    /\ (forall failure,
          feed r0 [ m0; MFailure failure ] heap
            = Returned [ IMatch (MFailure failure) ] heap)
    /\ (forall failure,
          feed r0 [ MFailure failure ] heap
            = Returned [ IMatch (MFailure failure) ] heap).
Proof.
  intros Hstart Hend.
  eexists _, _, _. split; [reflexivity|]. split; [reflexivity|].
  split; [reflexivity|]. split; [|split; intros; reflexivity].
  simpl. unfold bind, ret, chain_on_p2. simpl.
  destruct s as [[a b] v]. simpl in *. subst a. unfold mergeSpan. simpl.
  rewrite Z.ltb_irrefl. simpl.
  destruct (index <? b) eqn:E; [reflexivity|].
  apply Z.ltb_ge in E. replace b with index by lia. reflexivity.
Qed.

(** ** Sequences *)

Lemma seq_feed_next (children : list Parser) (start : Z)
    (ss : list MatchSuccess) (i : nat) (index : Z) (rv : list Value) :
  (i + length ss <= length children)%nat ->
  seq_feed (seq_next children i start index rv) (map MSuccess ss)
  = seq_next children (i + length ss) start (last_end index ss)
      (rv ++ map value ss).
Proof.
  revert i index rv.
  induction ss as [|s ss IH]; intros i index rv Hlen.
  - simpl. rewrite Nat.add_0_r, app_nil_r. reflexivity.
  - simpl length in *. cbn [map seq_feed].
    destruct (lookup_lt_is_Some_2 children i) as [child Hchild]; [lia|].
    unfold seq_next at 1. rewrite Hchild. cbn [seq_answer seq_call].
    rewrite app_nil_r, IH by lia. rewrite last_end_cons.
    f_equal; [lia|]. rewrite <- app_assoc. reflexivity.
Qed.

(** X9: seq(p1..pn) at index, given one after the other the matches of its
    first j children (j <= n), has scheduled each child where the match
    before it ended, the first at index; after j < n matches it schedules
    child j+1 at the end of the last match, and after all n it returns one
    Success with span (index, end of the last match) and the values of all
    the matches in order, none left out.  With no children it succeeds at
    once with span (index, index) and the empty array. *)
Theorem seq_collects (children : list Parser) (stream : Sequence)
    (index : Z) (ss : list MatchSuccess) :
  (length ss <= length children)%nat ->
  (forall child, children !! length ss = Some child ->
     exists handler,
       seq_feed (seq_matcher children stream index) (map MSuccess ss)
       = [ SSchedule child (last_end index ss) handler ])
  /\ (length ss = length children ->
      seq_feed (seq_matcher children stream index) (map MSuccess ss)
      = [ SMatch (MSuccess (mkSuccess (mkSpan index (last_end index ss))
                              (VArray (map value ss)))) ]).
Proof.
  intros Hlen. unfold seq_matcher. rewrite seq_feed_next by exact Hlen.
  simpl. unfold seq_next. split.
  - intros child ->. eexists. reflexivity.
  - intros Hall. rewrite (lookup_ge_None_2 children (length ss)) by lia.
    reflexivity.
Qed.

(** X10: when a child of seq(p1..pn) fails after the children before it
    have matched, what seq returns is that Failure alone and unchanged: it
    keeps its own span and message, where the child failed and not at
    index, the values matched so far are dropped, and no child is
    scheduled any more. *)
Theorem seq_failure (children : list Parser) (stream : Sequence)
    (index : Z) (ss : list MatchSuccess) (failure : MatchFailure) :
  (length ss < length children)%nat ->
  seq_feed (seq_matcher children stream index)
    (map MSuccess ss ++ [ MFailure failure ])
  = [ SMatch (MFailure failure) ].
Proof.
  intros Hlen.
  assert (Hfeed_app : forall ms1 ms2 r,
            seq_feed r (ms1 ++ ms2) = seq_feed (seq_feed r ms1) ms2).
  { induction ms1 as [|m ms1 IH]; intros ms2 r; [reflexivity|].
    simpl. apply IH. }
  rewrite Hfeed_app. unfold seq_matcher.
  rewrite seq_feed_next by lia. simpl.
  destruct (lookup_lt_is_Some_2 children (length ss)) as [child Hchild];
    [lia|].
  unfold seq_next. rewrite Hchild. reflexivity.
Qed.

(** X21: seq2(p1, p2) and seq(p1, p2) return the same Success for matches of
    p1 and p2 that follow one another from index on, with span (index, end
    of the second match) and the two values as an array; and both return a
    Failure of p1, or of p2 after p1 has matched, unchanged. *)
Theorem seq2_agrees_with_seq (p1 p2 : Parser) (stream : Sequence)
    (index : Z) (s1 s2 : MatchSuccess) (heap : Heap) :
  linked index [ s1; s2 ] ->
  exists r0,
    seq2_matcher p1 p2 stream index heap = Returned r0 heap
    /\ feed r0 [ MSuccess s1; MSuccess s2 ] heap
       = Returned
           [ IMatch (MSuccess
               (mkSuccess (mkSpan index (end_ (sspan s2)))
                  (VArray [ value s1; value s2 ]))) ] heap
    /\ seq_feed (seq_matcher [ p1; p2 ] stream index)
         [ MSuccess s1; MSuccess s2 ]
       = [ SMatch (MSuccess
             (mkSuccess (mkSpan index (end_ (sspan s2)))
                (VArray [ value s1; value s2 ]))) ]
    /\ (forall failure,
          feed r0 [ MFailure failure ] heap
            = Returned [ IMatch (MFailure failure) ] heap
          /\ seq_feed (seq_matcher [ p1; p2 ] stream index)
               [ MFailure failure ]
             = [ SMatch (MFailure failure) ]
          /\ feed r0 [ MSuccess s1; MFailure failure ] heap
             = Returned [ IMatch (MFailure failure) ] heap
          /\ seq_feed (seq_matcher [ p1; p2 ] stream index)
               [ MSuccess s1; MFailure failure ]
             = [ SMatch (MFailure failure) ]).
Proof.
  intros (Hs1 & Hle1 & Hs2 & Hle2 & _).
  eexists. split; [reflexivity|].
  split; [|split; [reflexivity|intros; repeat split; reflexivity]].
  simpl. unfold bind, ret, chain_on_p2. simpl.
  rewrite mergeSpan_ordered by lia. rewrite Hs1. reflexivity.
Qed.

(** ** Lookarounds and repetition together *)

(** X22: not(not(P)) at index succeeds exactly for the reports of P for which
    check(P) succeeds, with the same span (index, index); its value is
    null where check(P) has the value of P, and for a Failure of P it
    returns a Failure at index that names the outer not, where check(P)
    returns the Failure of P. *)
Theorem not_not_is_check (outer inner : Parser) (index : Z) (m : Match)
    (heap : Heap) :
  exists m' out out',
    call (not_handler inner index) m heap = Returned [ IMatch m' ] heap
    /\ call (not_handler outer index) m' heap = Returned [ IMatch out ] heap
    /\ call (check_handler index) m heap = Returned [ IMatch out' ] heap
    /\ is_success out = is_success m
    /\ is_success out' = is_success m
    /\ (forall s, m = MSuccess s ->
          out = MSuccess (mkSuccess (mkSpan index index) VNull)
          /\ out' = MSuccess (mkSuccess (mkSpan index index) (value s)))
    /\ (forall failure, m = MFailure failure ->
          out = MFailure (mkFailure (mkSpan index index)
                            ("Expected " ++ description outer) None 0)
          /\ out' = m).
Proof.
  destruct m as [s|failure]; eexists _, _, _;
    (split; [reflexivity|]); (split; [reflexivity|]);
    (split; [reflexivity|]); (split; [reflexivity|]);
    (split; [reflexivity|]); split; intros x Hx;
    try discriminate Hx; injection Hx as <-; split; reflexivity.
Qed.

(** X23: a lookahead of a lookaround changes nothing: what check(P) or not(P)
    returns at index, check returns unchanged when it is scheduled on it at
    the same index. *)
Theorem check_of_lookaround (parser : Parser) (index : Z) (m : Match)
    (heap : Heap) :
  (forall r, call (check_handler index) m heap = Returned r heap ->
     forall m', In (IMatch m') r ->
       call (check_handler index) m' heap = Returned [ IMatch m' ] heap)
  /\ (forall r, call (not_handler parser index) m heap = Returned r heap ->
       forall m', In (IMatch m') r ->
         call (check_handler index) m' heap = Returned [ IMatch m' ] heap).
Proof.
  split; intros r Hcall m' Hin; destruct m as [s|failure];
    injection Hcall as <-; only_item Hin; injection Hin as <-; reflexivity.
Qed.

(** X24: repeat(optionalOr(p, d)) cannot run: at every state where repeat
    schedules its child at pos, the Success that optionalOr returns at once
    at pos has no width, and the handler of repeat throws on it. *)
Theorem repeat_optional_throws (parser optional p : Parser) (d : Value)
    (options : RepeatOptions) (stream : Sequence) (index count : Z)
    (accumulator : list Value) (pos : Z) (heap : Heap) :
  lt_number count (repeat_max options) = true ->
  exists items m,
    optionalOr_matcher p d stream pos heap = Returned items heap
    /\ In (IMatch m) items
    /\ answer (next parser optional (repeat_min options)
                 (repeat_max options) index count accumulator pos) m heap
       = Thrown ("Repeating parser isn't making progress at position "
                 ++ number_toString pos ++ ": " ++ toString optional).
Proof.
  intros Hmax. eexists _, _. split; [reflexivity|].
  split; [right; left; reflexivity|].
  rewrite answer_next, Hmax. unfold process. simpl.
  rewrite Z.eqb_refl. reflexivity.
Qed.

End Combiners.

Arguments Returned {ParseTask T} v heap.
Arguments Thrown {ParseTask T} error.

(** ** The theorems at concrete inputs

    Parsers are named by their descriptions here, and print as them. *)

(** Two adjacent spans, as [chain] merges them. *)
Lemma mergeSpan_covering_iff_witness :
  start (mkSpan 0 3) <= end_ (mkSpan 0 3)
  /\ start (mkSpan 3 5) <= end_ (mkSpan 3 5)
  /\ (mergeSpan (mkSpan 0 3) (mkSpan 3 5) = covering (mkSpan 0 3) (mkSpan 3 5)
      <-> ~ inside (mkSpan 0 3) (mkSpan 3 5)
          /\ ~ inside (mkSpan 3 5) (mkSpan 0 3)).
Proof.
  split; [simpl; lia|]. split; [simpl; lia|].
  apply (mergeSpan_covering_iff (mkSpan 0 3) (mkSpan 3 5)); simpl; lia.
Defined.

(** [repeat(check(digit))] at position 0: the child matches without
    consuming anything. *)
Lemma repeat_no_progress_witness :
  let id := fun p : string => p in
  let handler :=
    repeat_handler (Parser := string) "digit{0+}" "check(digit)"
      (Num 0) Infinity 0 0 [] in
  let s := mkSuccess (mkSpan 0 0) (VString "") in
  In (ISchedule (ParseTask := unit) "check(digit)" 0 handler)
     (next "digit{0+}" "check(digit)" (repeat_min (mkOptions None None))
        (repeat_max (mkOptions None None)) 0 0 [] 0)
  /\ start (sspan s) = end_ (sspan s)
  /\ call (ParseTask := unit) id id handler (MSuccess s) []
     = Thrown
         "Repeating parser isn't making progress at position 0: check(digit)".
Proof.
  split; [right; left; reflexivity|]. split; [reflexivity|].
  apply (repeat_no_progress (ParseTask := unit)
           (fun p : string => p) (fun p : string => p)
           "digit{0+}" "check(digit)" (mkOptions None None) 0 0 [] 0
           "check(digit)" 0
           (repeat_handler "digit{0+}" "check(digit)" (Num 0) Infinity
              0 0 [])
           (mkSuccess (mkSpan 0 0) (VString "")) []).
  - right. left. reflexivity.
  - reflexivity.
Defined.



(** [repeat('ab', { min: 3 })] on "abab": after two matches the count is
    below min, so there is no candidate, and the Failure of 'ab' at 4 gives
    the Failure of the repeat, from 0 to 4. *)
Lemma repeat_emits_witness :
  let id := fun p : string => p in
  let ss := [ mkSuccess (mkSpan 0 2) (VString "ab");
              mkSuccess (mkSpan 2 4) (VString "ab") ] in
  let options := mkOptions (Some (Num 3)) None in
  let failure := mkFailure (ParseTask := unit) (mkSpan 4 4) "Expected 'ab'"
                   None 0 in
  Forall (fun s => start (sspan s) <> end_ (sspan s)) ss
  /\ (ss <> [] ->
      lt_number (Z.of_nat (length ss) - 1) (or_number (max options) Infinity)
      = true)
  /\ exists r0 r,
       repeat_matcher (A := ascii) (ParseTask := unit) "'ab'{3+}" "'ab'"
         options [] 0 [] = Returned r0 []
       /\ feed id id r0 (map MSuccess ss) [] = Returned r []
       /\ (forall m, ~ In (IMatch m) r)
       /\ feed id id r0 (map MSuccess ss ++ [ MFailure failure ]) []
          = Returned [ IMatch (MFailure (mkFailure (mkSpan 0 4)
                                           "Expected 'ab'{3+}" None 0)) ] [].
Proof.
  split; [repeat constructor; discriminate|]. split; [reflexivity|].
  destruct (repeat_emits (A := ascii) (ParseTask := unit)
              (fun p : string => p) (fun p : string => p)
              "'ab'{3+}" "'ab'" (mkOptions (Some (Num 3)) None) [] 0
              [ mkSuccess (mkSpan 0 2) (VString "ab");
                mkSuccess (mkSpan 2 4) (VString "ab") ]
              (mkFailure (mkSpan 4 4) "Expected 'ab'" None 0) [])
    as (r0 & r & Hmatcher & Hfeed & Hcandidate & Hfailure & _).
  - repeat constructor; discriminate.
  - reflexivity.
  - exists r0, r. split; [exact Hmatcher|]. split; [exact Hfeed|]. split.
    + intros m Hin. apply Hcandidate in Hin. destruct Hin as [Hge _].
      discriminate Hge.
    + apply Hfailure. reflexivity.
Defined.

(** [repeat('ab', { max: 0 })] on "abab": after two matches 'ab' is
    scheduled once more, at 4. *)
Lemma repeat_max_zero_unbounded_witness :
  let id := fun p : string => p in
  let ss := [ mkSuccess (mkSpan 0 2) (VString "ab");
              mkSuccess (mkSpan 2 4) (VString "ab") ] in
  Forall (fun s => start (sspan s) <> end_ (sspan s)) ss
  /\ exists r0 r,
       repeat_matcher (A := ascii) (ParseTask := unit) "'ab'{0+}" "'ab'"
         (mkOptions None (Some (Num 0))) [] 0 [] = Returned r0 []
       /\ feed id id r0 (map MSuccess ss) [] = Returned r []
       /\ In (ISchedule "'ab'" 4
                (repeat_handler "'ab'{0+}" "'ab'" (Num 0) Infinity 0 2
                   [ VString "ab"; VString "ab" ])) r.
Proof.
  split; [repeat constructor; discriminate|].
  destruct (repeat_max_zero_unbounded (A := ascii) (ParseTask := unit)
              (fun p : string => p) (fun p : string => p)
              "'ab'{0+}" "'ab'" None [] 0
              [ mkSuccess (mkSpan 0 2) (VString "ab");
                mkSuccess (mkSpan 2 4) (VString "ab") ] [])
    as (r0 & r & Hmatcher & _ & _ & Hfeed & Hin & _).
  - repeat constructor; discriminate.
  - exists r0, r. split; [exact Hmatcher|]. split; [exact Hfeed|].
    exact Hin.
Defined.

(** ** The scenarios of the tests, at the level of the handlers *)

(** "chain": [chain(matchString("abc"), matchString("123"), (a, b) => b + a)]
    on "abc123" gives "123abc" with span (0, 6). *)
Example chain_abc123 :
  let id := fun p : string => p in
  let combiner := fun a b =>
    match a, b with
    | VString a, VString b => VString (b ++ a)
    | _, _ => VUndefined
    end in
  call (ParseTask := unit) id id (chain_handler1 "'123'" combiner)
    (MSuccess (mkSuccess (mkSpan 0 3) (VString "abc"))) []
  = Returned [ ISchedule "'123'" 3
                 (chain_handler2 (mkSpan 0 3) (VString "abc") combiner) ] []
  /\ call (ParseTask := unit) id id
       (chain_handler2 (mkSpan 0 3) (VString "abc") combiner)
       (MSuccess (mkSuccess (mkSpan 3 6) (VString "123"))) []
     = Returned [ IMatch (MSuccess
                    (mkSuccess (mkSpan 0 6) (VString "123abc"))) ] [].
Proof. split; reflexivity. Qed.

(** "alt messages": on "x" both alternatives fail at 0 with priority 0, and
    the failure names the alt itself. *)
Example alt_greeting_x :
  let id := fun p : string => p in
  let f1 := mkFailure (ParseTask := unit) (mkSpan 0 0) "Expected 'hello'"
              None 0 in
  let f2 := mkFailure (ParseTask := unit) (mkSpan 0 0) "Expected 'good'"
              None 0 in
  deliver id id (alt_handler "greeting" [ "'hello'"; "farewell" ] 0 0%nat)
    [ MFailure f1; MFailure f2 ] [ mkAltCell 0 [] ]
  = Returned
      [ []; [ IMatch (MFailure (mkFailure (mkSpan 0 0) "Expected greeting"
                                  None 0)) ] ]
      [ mkAltCell 2 [ f1; f2 ] ].
Proof. reflexivity. Qed.

(** "counts alternatives correctly": three alternatives fail at 0, the last
    with priority 1, and its failure is the one reported. *)
Example alt_yikes :
  let id := fun p : string => p in
  let f1 := mkFailure (ParseTask := unit) (mkSpan 0 0) "Expected 'y'"
              None 0 in
  let f2 := mkFailure (ParseTask := unit) (mkSpan 0 0) "Expected 'z'"
              None 0 in
  let f3 := mkFailure (ParseTask := unit) (mkSpan 0 0) "Expected yikes!"
              None 1 in
  deliver id id (alt_handler "alt" [ "xy"; "'z'"; "yikes!" ] 0 0%nat)
    [ MFailure f1; MFailure f2; MFailure f3 ] [ mkAltCell 0 [] ]
  = Returned [ []; []; [ IMatch (MFailure f3) ] ]
      [ mkAltCell 3 [ f1; f2; f3 ] ].
Proof. reflexivity. Qed.

(** "check": [check(matchString("hello"))] on "hello" succeeds with span
    end 0 and value "hello". *)
Example check_hello :
  call (Parser := string) (ParseTask := unit) (fun p => p) (fun p => p)
    (check_handler 0) (MSuccess (mkSuccess (mkSpan 0 5) (VString "hello")))
    []
  = Returned [ IMatch (MSuccess (mkSuccess (mkSpan 0 0) (VString "hello"))) ]
      [].
Proof. reflexivity. Qed.

(** "not": [not(matchString("hello"))] on "cat" succeeds with span end 0 and
    a null value; on "hello" it fails. *)
Example not_hello :
  let id := fun p : string => p in
  call (ParseTask := unit) id id (not_handler "not('hello')" 0)
    (MFailure (mkFailure (mkSpan 0 0) "Expected 'hello'" None 0)) []
  = Returned [ IMatch (MSuccess (mkSuccess (mkSpan 0 0) VNull)) ] []
  /\ call (ParseTask := unit) id id (not_handler "not('hello')" 0)
       (MSuccess (mkSuccess (mkSpan 0 5) (VString "hello"))) []
     = Returned [ IMatch (MFailure (mkFailure (mkSpan 0 0)
                                      "Expected not('hello')" None 0)) ] [].
Proof. split; reflexivity. Qed.

(** [repeat(p, { max: 0 })] schedules its child at the first state, and
    returns the empty match as a candidate. *)
Example repeat_max_zero_first_state :
  repeat_matcher (A := ascii) (ParseTask := unit) "p{0+}" "p"
    (mkOptions None (Some (Num 0))) [] 0 []
  = Returned
      [ IMatch (MSuccess (mkSuccess (mkSpan 0 0) (VArray [])));
        ISchedule "p" 0
          (repeat_handler "p{0+}" "p" (Num 0) Infinity 0 0 []) ]
      [].
Proof. reflexivity. Qed.

(** ** The parser state: positions, lines and spans *)

Module ParserStateFacts.
Import ParserState.
Section Facts.

Context {Trampoline Debugger : Type}.
Implicit Types s : @ParserState Trampoline Debugger.

Lemma substring_step (text : string) (p k : nat) :
  substring p (S k) text
  = match String.get p text with
    | Some c => String c (substring (S p) k text)
    | None => EmptyString
    end.
Proof.
  revert p. induction text as [|c text IH]; intros p.
  - destruct p; reflexivity.
  - destruct p as [|p]; [reflexivity|].
    change (substring (S p) (S k) (String c text))
      with (substring p (S k) text).
    rewrite IH. reflexivity.
Qed.

Lemma substring_none (text : string) (p : nat) :
  substring p 0 text = EmptyString.
Proof.
  revert p. induction text as [|c text IH]; intros p.
  - destruct p; reflexivity.
  - destruct p as [|p]; [reflexivity|]. simpl. apply IH.
Qed.

Lemma substring_past (text : string) (p q k : nat) :
  String.get p text = None -> (p <= q)%nat ->
  substring q k text = EmptyString.
Proof.
  revert p q. induction text as [|c text IH]; intros p q Hget Hle.
  - destruct q, k; reflexivity.
  - destruct p as [|p]; [discriminate|]. destruct q as [|q]; [lia|].
    simpl in Hget. simpl. apply (IH p); [exact Hget|lia].
Qed.

Lemma char_at_get (text : string) (p : Z) :
  0 <= p -> char_at text p = String.get (Z.to_nat p) text.
Proof.
  intros Hp. unfold char_at.
  destruct (p <? 0) eqn:E; [apply Z.ltb_lt in E; lia|reflexivity].
Qed.

(** The loop of [advance] and the stretch of text it walks over. *)
Lemma advance_loop_spec (text : string) (k : nat) (p l x : Z) :
  0 <= p ->
  exists l' x',
    advance_loop text k p l x = (p + Z.of_nat k, l', x')
    /\ l' = l + Z.of_nat (occurrences newline
                            (substring (Z.to_nat p) k text))
    /\ (occurrences newline (substring (Z.to_nat p) k text) = O ->
        x' = x + Z.of_nat k)
    /\ (occurrences newline (substring (Z.to_nat p) k text) <> O ->
        0 <= x' < Z.of_nat k).
Proof.
  revert p l x. induction k as [|k IH]; intros p l x Hp.
  - exists l, x. simpl. rewrite Z.add_0_r.
    rewrite substring_none.
    simpl. repeat split; try lia.
  - cbn [advance_loop]. unfold is_newline. rewrite char_at_get by exact Hp.
    rewrite substring_step.
    replace (S (Z.to_nat p)) with (Z.to_nat (p + 1)) by lia.
    destruct (String.get (Z.to_nat p) text) as [c|] eqn:Eget.
    + cbn [occurrences]. destruct (Ascii.eqb c newline).
      * destruct (IH (p + 1) (l + 1) 0) as (l' & x' & Hloop & Hl & Hx0 & Hx1);
          [lia|].
        exists l', x'. rewrite Hloop. split; [f_equal; f_equal; lia|].
        split; [lia|]. split; [discriminate|]. intros _.
        destruct (occurrences newline (substring (Z.to_nat (p + 1)) k text));
          [specialize (Hx0 eq_refl)|specialize (Hx1 ltac:(discriminate))];
          lia.
      * destruct (IH (p + 1) l (x + 1)) as (l' & x' & Hloop & Hl & Hx0 & Hx1);
          [lia|].
        exists l', x'. rewrite Hloop. split; [f_equal; f_equal; lia|].
        split; [exact Hl|]. split.
        -- intros H0. specialize (Hx0 H0). lia.
        -- intros H1. specialize (Hx1 H1). lia.
    + destruct (IH (p + 1) l (x + 1)) as (l' & x' & Hloop & Hl & Hx0 & _);
        [lia|].
      rewrite (substring_past text (Z.to_nat p) (Z.to_nat (p + 1)) k)
        in Hl, Hx0 by (try exact Eget; lia).
      simpl in Hl, Hx0. specialize (Hx0 eq_refl).
      exists l', x'. rewrite Hloop. simpl.
      split; [f_equal; f_equal; lia|]. repeat split; lia.
Qed.

Lemma advance_loop_pos (text : string) (k : nat) (p l x : Z) :
  fst (fst (advance_loop text k p l x)) = p + Z.of_nat k.
Proof.
  revert p l x. induction k as [|k IH]; intros p l x.
  - simpl. lia.
  - cbn [advance_loop]. destruct (is_newline text p); rewrite IH; lia.
Qed.

Lemma advance_loop_add (text : string) (k1 k2 : nat) (p l x : Z) :
  advance_loop text (k1 + k2) p l x
  = let '(p', l', x') := advance_loop text k1 p l x in
    advance_loop text k2 p' l' x'.
Proof.
  revert p l x. induction k1 as [|k1 IH]; intros p l x; [reflexivity|].
  cbn [Nat.add advance_loop]. destruct (is_newline text p); apply IH.
Qed.

Lemma advance_fields s (n : Z) :
  advance_loop (text s) (Z.to_nat n) (pos s) (lineno s) (xpos s)
  = (pos (advance s n), lineno (advance s n), xpos (advance s n))
  /\ text (advance s n) = text s
  /\ oldpos (advance s n) = Some (pos s, xpos s, lineno s)
  /\ endpos (advance s n) = endpos s.
Proof.
  unfold advance.
  destruct (advance_loop (text s) (Z.to_nat n) (pos s) (lineno s) (xpos s))
    as [[p' l'] x'].
  simpl. auto.
Qed.

Lemma advance_pos s (n : Z) :
  pos (advance s n) = pos s + Z.max 0 n.
Proof.
  destruct (advance_fields s n) as (Hloop & _).
  pose proof (advance_loop_pos (text s) (Z.to_nat n) (pos s) (lineno s)
                (xpos s)) as Hpos.
  rewrite Hloop in Hpos. simpl in Hpos. lia.
Qed.

(** On a stretch without linefeed [advance] stays on the line. *)
Lemma advance_same_line s (n : Z) :
  0 <= pos s ->
  occurrences newline
    (substring (Z.to_nat (pos s)) (Z.to_nat n) (text s)) = O ->
  lineno (advance s n) = lineno s
  /\ xpos (advance s n) = xpos s + Z.max 0 n.
Proof.
  intros Hpos Hnone.
  destruct (advance_fields s n) as (Hloop & _).
  destruct (advance_loop_spec (text s) (Z.to_nat n) (pos s) (lineno s)
              (xpos s) Hpos) as (l' & x' & Hspec & Hl & Hx0 & _).
  rewrite Hspec in Hloop. injection Hloop as _ <- <-.
  rewrite Hnone in Hl. specialize (Hx0 Hnone). lia.
Qed.

(** X11: advance(n) moves the position n places on for n >= 0 and leaves it
    for n <= 0, where it also leaves line and column: a state never moves
    back.  It keeps the text and records the position, column and line it
    started from in oldpos. *)
Theorem advance_moves s (n : Z) :
  pos (advance s n) = pos s + Z.max 0 n
  /\ text (advance s n) = text s
  /\ oldpos (advance s n) = Some (pos s, xpos s, lineno s)
  /\ (n <= 0 ->
      lineno (advance s n) = lineno s /\ xpos (advance s n) = xpos s).
Proof.
  unfold advance.
  pose proof (advance_loop_pos (text s) (Z.to_nat n) (pos s) (lineno s)
                (xpos s)) as Hpos.
  destruct (advance_loop (text s) (Z.to_nat n) (pos s) (lineno s) (xpos s))
    as [[p' l'] x'] eqn:Eloop.
  simpl in *. split; [lia|]. split; [reflexivity|]. split; [reflexivity|].
  intros Hn. replace (Z.to_nat n) with O in Eloop by lia.
  simpl in Eloop. injection Eloop as _ <- <-. auto.
Qed.

(** X12: advancing n places and then m places (n, m >= 0) ends at the same
    position, line and column as advancing n + m places at once; the two
    differ in oldpos, which is where the last advance started. *)
Theorem advance_add s (n m : Z) :
  0 <= n -> 0 <= m ->
  pos (advance (advance s n) m) = pos (advance s (n + m))
  /\ lineno (advance (advance s n) m) = lineno (advance s (n + m))
  /\ xpos (advance (advance s n) m) = xpos (advance s (n + m))
  /\ oldpos (advance (advance s n) m)
     = Some (pos (advance s n), xpos (advance s n), lineno (advance s n))
  /\ oldpos (advance s (n + m)) = Some (pos s, xpos s, lineno s).
Proof.
  intros Hn Hm.
  destruct (advance_fields s n) as (H1 & Ht1 & _).
  destruct (advance_fields (advance s n) m) as (H2 & _ & Ho2 & _).
  destruct (advance_fields s (n + m)) as (H3 & _ & Ho3 & _).
  replace (Z.to_nat (n + m)) with (Z.to_nat n + Z.to_nat m)%nat in H3
    by lia.
  rewrite advance_loop_add, H1, <- Ht1, H2 in H3.
  injection H3 as -> -> ->. auto.
Qed.

(** X13: advance(n) from a position inside or past the text counts the
    linefeeds among the n characters it walks over: lineno grows by their
    number (past the end of the text there is none); with none among them,
    xpos grows by n, and otherwise xpos starts again after the last of them
    and ends below n. *)
Theorem advance_counts_lines s (n : Z) :
  0 <= pos s ->
  lineno (advance s n)
  = lineno s
    + Z.of_nat (occurrences newline
                  (substring (Z.to_nat (pos s)) (Z.to_nat n) (text s)))
  /\ (occurrences newline
        (substring (Z.to_nat (pos s)) (Z.to_nat n) (text s)) = O ->
      xpos (advance s n) = xpos s + Z.max 0 n)
  /\ (occurrences newline
        (substring (Z.to_nat (pos s)) (Z.to_nat n) (text s)) <> O ->
      0 <= xpos (advance s n) < n).
Proof.
  intros Hpos.
  destruct (advance_fields s n) as (Hloop & _).
  destruct (advance_loop_spec (text s) (Z.to_nat n) (pos s) (lineno s)
              (xpos s) Hpos) as (l' & x' & Hspec & Hl & Hx0 & Hx1).
  rewrite Hspec in Hloop. injection Hloop as _ <- <-.
  split; [exact Hl|]. split.
  - intros H0. specialize (Hx0 H0). lia.
  - intros H1. specialize (Hx1 H1). lia.
Qed.

Lemma flip_fields s :
  (pos (flip s), xpos (flip s), lineno (flip s))
  = match oldpos s with
    | Some old => old
    | None => (pos s, xpos s, lineno s)
    end
  /\ endpos (flip s) = Some (pos s)
  /\ endxpos (flip s) = Some (xpos s)
  /\ endlineno (flip s) = Some (lineno s)
  /\ oldpos (flip s) = oldpos s
  /\ text (flip s) = text s.
Proof.
  unfold flip. destruct (oldpos s) as [[[p x] l]|]; simpl; auto 6.
Qed.

(** X14: flip() after advance(n) is the span of what was walked over: it
    starts at the position, column and line where the state stood, and its
    endpos is the position advanced to, n places on for n >= 0; endpos is
    never before pos. *)
Theorem flip_advance s (n : Z) :
  pos (flip (advance s n)) = pos s
  /\ xpos (flip (advance s n)) = xpos s
  /\ lineno (flip (advance s n)) = lineno s
  /\ endpos (flip (advance s n)) = Some (pos s + Z.max 0 n)
  /\ endxpos (flip (advance s n)) = Some (xpos (advance s n))
  /\ endlineno (flip (advance s n)) = Some (lineno (advance s n)).
Proof.
  destruct (flip_fields (advance s n)) as (Hstart & He & Hex & Hel & _).
  destruct (advance_fields s n) as (_ & _ & Hold & _).
  rewrite Hold in Hstart. injection Hstart as -> -> ->.
  rewrite He, Hex, Hel, advance_pos. auto 6.
Qed.

(** X15: flip() is not idempotent.  After advance(n) with n > 0, a second
    flip gives another state than the first: it starts where the first one
    does, at the position before the advance, but its endpos is that same
    position and no longer the position advanced to, so the span that the
    first flip made loses its width.  In general flip(flip(s)) is flip(s)
    only when s has no oldpos or stands where its oldpos says. *)
Theorem flip_twice s (n : Z) :
  0 < n ->
  flip (flip (advance s n)) <> flip (advance s n)
  /\ pos (flip (flip (advance s n))) = pos (flip (advance s n))
  /\ pos (flip (advance s n)) = pos s
  /\ endpos (flip (advance s n)) = Some (pos s + n)
  /\ endpos (flip (flip (advance s n))) = Some (pos s)
  /\ (forall t : @ParserState Trampoline Debugger,
        flip (flip t) = flip t
        <-> match oldpos t with
            | Some old => old = (pos t, xpos t, lineno t)
            | None => True
            end).
Proof.
  intros Hn.
  destruct (flip_fields (advance s n)) as (Hstart & He & _ & _ & Hold & _).
  destruct (flip_fields (flip (advance s n))) as (Hstart2 & He2 & _).
  destruct (advance_fields s n) as (_ & _ & Hadv & _).
  rewrite Hold, Hadv in Hstart2. rewrite Hadv in Hstart.
  injection Hstart as Hp _ _. injection Hstart2 as Hp2 _ _.
  rewrite advance_pos, Z.max_r in He by lia. rewrite Hp in He2.
  split; [|split; [congruence|split; [exact Hp|split; [exact He|split;
    [exact He2|]]]]].
  - intros Heq. rewrite Heq, He in He2. injection He2. lia.
  - intros t. destruct t as [tx p e l x tr d dbg sn psn old ep ex el].
    unfold flip. simpl. destruct old as [[[p0 x0] l0]|]; simpl.
    + split.
      * intros Heq. injection Heq as -> -> ->. reflexivity.
      * intros Heq. injection Heq as -> -> ->. reflexivity.
    + split; [trivial|reflexivity].
Qed.

Lemma backfill_fields s other :
  (endpos s = None ->
   pos (backfill s other) = pos s
   /\ xpos (backfill s other) = xpos s
   /\ lineno (backfill s other) = lineno s
   /\ endpos (backfill s other) = None
   /\ oldpos (backfill s other)
      = Some (match oldpos other with
              | Some old => old
              | None => (pos other, xpos other, lineno other)
              end))
  /\ (endpos s <> None ->
      pos (backfill s other) = pos other
      /\ xpos (backfill s other) = xpos other
      /\ lineno (backfill s other) = lineno other
      /\ endpos (backfill s other) = endpos s
      /\ endxpos (backfill s other) = endxpos s
      /\ endlineno (backfill s other) = endlineno s).
Proof.
  unfold backfill. destruct (endpos s) as [e|]; simpl; split;
    intros H; try congruence; auto 7.
Qed.

(** X16: two advances in a row, of n and of m places from a state that was
    not flipped, are covered as one span in either order of the calls:
    backfill with the state between them and then flip, or flip both and
    then backfill, start where the first advance started and have endpos
    n + m places on. *)
Theorem backfill_covers s (n m : Z) :
  endpos s = None -> 0 <= n -> 0 <= m ->
  pos (flip (backfill (advance (advance s n) m) (advance s n))) = pos s
  /\ endpos (flip (backfill (advance (advance s n) m) (advance s n)))
     = Some (pos s + n + m)
  /\ pos (backfill (flip (advance (advance s n) m)) (flip (advance s n)))
     = pos s
  /\ endpos (backfill (flip (advance (advance s n) m)) (flip (advance s n)))
     = Some (pos s + n + m).
Proof.
  intros Hend Hn Hm.
  set (s1 := advance s n). set (s2 := advance s1 m).
  destruct (advance_fields s n) as (_ & _ & Hold1 & Hend1).
  destruct (advance_fields s1 m) as (_ & _ & Hold2 & Hend2).
  pose proof (advance_pos s n) as Hpos1.
  pose proof (advance_pos s1 m) as Hpos2.
  fold s1 in Hold1, Hend1, Hpos1. fold s2 in Hold2, Hend2, Hpos2.
  assert (Hs2 : endpos s2 = None) by congruence.
  destruct (backfill_fields s2 s1) as [Hb _].
  destruct (Hb Hs2) as (Hbp & _ & _ & _ & Hbo).
  rewrite Hold1 in Hbo.
  destruct (flip_fields (backfill s2 s1)) as (Hf & Hfe & _).
  rewrite Hbo in Hf. injection Hf as Hf _ _.
  destruct (flip_fields s2) as (_ & Hfe2 & _).
  destruct (flip_fields s1) as (Hf1 & _).
  rewrite Hold1 in Hf1. injection Hf1 as Hf1 _ _.
  destruct (backfill_fields (flip s2) (flip s1)) as [_ Hb2].
  destruct Hb2 as (Hb2p & _ & _ & Hb2e & _); [congruence|].
  repeat split.
  - exact Hf.
  - rewrite Hfe, Hbp. f_equal. lia.
  - congruence.
  - rewrite Hb2e, Hfe2. f_equal. lia.
Qed.

(** The two loops of [line]: where they stop, and what they passed. *)
Lemma scan_back_spec (text : string) (fuel : nat) (l : Z) :
  scan_back text fuel l <= l
  /\ (0 <= l -> 0 <= scan_back text fuel l)
  /\ (forall i, scan_back text fuel l < i <= l -> is_newline text i = false)
  /\ ((Z.to_nat l <= fuel)%nat ->
      scan_back text fuel l <= 0
      \/ is_newline text (scan_back text fuel l) = true).
Proof.
  revert l. induction fuel as [|fuel IH]; intros l.
  - simpl. split; [lia|]. split; [lia|]. split; [intros i Hi; lia|].
    intros Hfuel. left. lia.
  - cbn [scan_back].
    destruct (0 <? l) eqn:E0; [apply Z.ltb_lt in E0|apply Z.ltb_ge in E0];
      simpl.
    + destruct (is_newline text l) eqn:En; simpl.
      * split; [lia|]. split; [lia|]. split; [intros i Hi; lia|].
        intros _. right. exact En.
      * destruct (IH (l - 1)) as (Hle & Hnn & Hpassed & Hstop).
        split; [lia|]. split; [lia|]. split.
        -- intros i Hi. destruct (Z.eq_dec i l) as [->|Hne]; [exact En|].
           apply Hpassed. lia.
        -- intros Hfuel. apply Hstop. lia.
    + split; [lia|]. split; [lia|]. split; [intros i Hi; lia|].
      intros _. left. lia.
Qed.

Lemma scan_forward_spec (text : string) (e : Z) (fuel : nat) (l : Z) :
  l <= scan_forward text e fuel l
  /\ (forall i, l <= i < scan_forward text e fuel l ->
        is_newline text i = false)
  /\ (is_newline text l = true -> scan_forward text e fuel l = l)
  /\ ((Z.to_nat (e - l) <= fuel)%nat ->
      e <= scan_forward text e fuel l
      \/ is_newline text (scan_forward text e fuel l) = true).
Proof.
  revert l. induction fuel as [|fuel IH]; intros l.
  - simpl. split; [lia|]. split; [intros i Hi; lia|].
    split; [reflexivity|]. intros Hfuel. left. lia.
  - cbn [scan_forward].
    destruct (l <? e) eqn:E0; [apply Z.ltb_lt in E0|apply Z.ltb_ge in E0];
      simpl.
    + destruct (is_newline text l) eqn:En; simpl.
      * split; [lia|]. split; [intros i Hi; lia|].
        split; [reflexivity|]. intros _. right. exact En.
      * destruct (IH (l + 1)) as (Hle & Hpassed & _ & Hstop).
        split; [lia|]. split; [|split; [discriminate|]].
        -- intros i Hi. destruct (Z.eq_dec i l) as [->|Hne]; [exact En|].
           apply Hpassed. lia.
        -- intros Hfuel. apply Hstop. lia.
    + split; [lia|]. split; [intros i Hi; lia|].
      split; [reflexivity|]. intros _. left. lia.
Qed.

(** Between the bounds that [line] finds there is no linefeed. *)
Lemma line_bounds_clean s (p : Z) :
  0 <= p ->
  0 <= fst (line_bounds s p)
  /\ p <= snd (line_bounds s p)
  /\ forall i, fst (line_bounds s p) <= i < snd (line_bounds s p) ->
       is_newline (text s) i = false.
Proof.
  intros Hp. unfold line_bounds. cbn [fst snd].
  set (l1 := if (0 <? p) && is_newline (text s) p then p - 1 else p).
  destruct (scan_back_spec (text s) (Z.to_nat l1) l1)
    as (Hle & Hnn & Hpassed & _).
  set (l2 := scan_back (text s) (Z.to_nat l1) l1) in *.
  destruct (scan_forward_spec (text s) (end_ s) (Z.to_nat (end_ s - p)) p)
    as (Hfle & Hfpassed & Hfstay & _).
  set (lend := scan_forward (text s) (end_ s) (Z.to_nat (end_ s - p)) p) in *.
  assert (Hl1 : 0 <= l1 /\ l1 <= p).
  { unfold l1. destruct ((0 <? p) && is_newline (text s) p) eqn:E; [|lia].
    apply andb_true_iff in E. destruct E as [E _]. apply Z.ltb_lt in E. lia. }
  split; [destruct (is_newline (text s) l2); lia|].
  split; [exact Hfle|].
  - intros i Hi.
    destruct (Z_lt_le_dec i p) as [Hlt|Hge].
    + (* before [p] *)
      assert (Hi1 : i <= l1).
      { unfold l1 in *.
        destruct ((0 <? p) && is_newline (text s) p) eqn:E; [lia|].
        destruct (Z.eq_dec i p); lia. }
      destruct (is_newline (text s) l2) eqn:En2.
      * apply Hpassed. lia.
      * destruct (Z.eq_dec i l2) as [->|Hne]; [exact En2|].
        apply Hpassed. lia.
    + (* from [p] on *)
      apply Hfpassed. lia.
Qed.

Lemma get_slice (text : string) (from to : Z) (k : nat) (c : ascii) :
  0 <= from -> 0 <= to ->
  String.get k (slice text from to) = Some c ->
  from <= from + Z.of_nat k < to
  /\ char_at text (from + Z.of_nat k) = Some c.
Proof.
  intros Hfrom Hto Hget. unfold slice in Hget.
  replace (from <? 0) with false in Hget
    by (symmetry; apply Z.ltb_ge; lia).
  replace (to <? 0) with false in Hget
    by (symmetry; apply Z.ltb_ge; lia).
  set (len := Z.of_nat (String.length text)) in *.
  destruct (Nat.lt_ge_cases k (Z.to_nat (Z.min to len - Z.min from len)))
    as [Hk|Hk]; [|rewrite substring_correct2 in Hget by exact Hk;
                   discriminate].
  rewrite substring_correct1 in Hget by exact Hk.
  destruct (Z_le_gt_dec from len) as [Hin|Hout]; [|lia].
  rewrite (Z.min_l from len) in Hk, Hget by exact Hin.
  replace (k + Z.to_nat from)%nat with (Z.to_nat (from + Z.of_nat k))
    in Hget by lia.
  rewrite <- char_at_get in Hget by lia.
  split; [lia|exact Hget].
Qed.

(** X17: the text that line(pos) returns for a position pos >= 0 holds no
    linefeed, wherever pos is, be it on a linefeed, in an empty line or
    past the end of the text. *)
Theorem line_has_no_linefeed s (p : Z) (k : nat) (c : ascii) :
  0 <= p ->
  String.get k (line s p) = Some c ->
  c <> newline.
Proof.
  intros Hp Hget. unfold line in Hget.
  destruct (line_bounds_clean s p Hp) as (Hstart & Hend & Hclean).
  destruct (line_bounds s p) as [lstart lend]. cbn [fst snd] in *.
  apply get_slice in Hget; [|exact Hstart|lia].
  destruct Hget as [Hrange Hchar].
  specialize (Hclean _ Hrange). unfold is_newline in Hclean.
  rewrite Hchar in Hclean. intros ->.
  rewrite Ascii.eqb_refl in Hclean. discriminate.
Qed.

(** X18: for a position pos >= 0, line(pos) is the slice of the text
    between two bounds that make a whole line: the first is 0 or comes
    right after a linefeed, the second is on a linefeed or has reached end;
    the line ends at pos or after it, and starts at pos or before it unless
    the text starts with a linefeed and pos is 0. *)
Theorem line_is_whole s (p : Z) :
  0 <= p ->
  exists lstart lend,
    line s p = slice (text s) lstart lend
    /\ (lstart = 0 \/ is_newline (text s) (lstart - 1) = true)
    /\ (end_ s <= lend \/ is_newline (text s) lend = true)
    /\ p <= lend
    /\ (lstart <= p \/ (p = 0 /\ lstart = 1
                        /\ is_newline (text s) 0 = true)).
Proof.
  intros Hp. exists (fst (line_bounds s p)), (snd (line_bounds s p)).
  split; [unfold line; destruct (line_bounds s p); reflexivity|].
  unfold line_bounds. cbn [fst snd].
  set (l1 := if (0 <? p) && is_newline (text s) p then p - 1 else p).
  destruct (scan_back_spec (text s) (Z.to_nat l1) l1)
    as (Hle & Hnn & _ & Hstop).
  set (l2 := scan_back (text s) (Z.to_nat l1) l1) in *.
  destruct (scan_forward_spec (text s) (end_ s) (Z.to_nat (end_ s - p)) p)
    as (Hfle & _ & _ & Hfstop).
  set (lend := scan_forward (text s) (end_ s) (Z.to_nat (end_ s - p)) p) in *.
  assert (Hl1 : 0 <= l1 /\ l1 <= p
                /\ (l1 = p -> 0 < p -> is_newline (text s) p = false)).
  { unfold l1. destruct (0 <? p) eqn:E0;
      [apply Z.ltb_lt in E0|apply Z.ltb_ge in E0]; simpl.
    - destruct (is_newline (text s) p); lia.
    - lia. }
  destruct Hl1 as (Hl1a & Hl1b & Hl1c).
  specialize (Hnn Hl1a). specialize (Hstop (Nat.le_refl _)).
  specialize (Hfstop (Nat.le_refl _)).
  split; [|split; [exact Hfstop|split; [exact Hfle|]]].
  - destruct (is_newline (text s) l2) eqn:En.
    + right. replace (l2 + 1 - 1) with l2 by lia. exact En.
    + left. destruct Hstop as [H0|H1]; [lia|congruence].
  - destruct (is_newline (text s) l2) eqn:En; [|left; lia].
    destruct (Z.eq_dec l2 p) as [Heq|Hne]; [|left; lia].
    right. subst l2. assert (Hl1p : l1 = p) by lia.
    destruct (Z.eq_dec p 0) as [Hp0|Hp0].
    + rewrite Heq, Hp0 in *. auto.
    + rewrite Heq in En. rewrite Hl1c in En by lia. discriminate.
Qed.

(** X19: the marks that toSquiggles() puts under the line of a flipped
    state are as many spaces as the column of the start of the span,
    followed by tildes, and never fewer than one tilde: a span without
    width is marked with one. *)
Theorem squiggles_mark s :
  exists k,
    (1 <= k)%nat
    /\ toSquiggles (flip s)
       = (line (flip s) (pos (flip s)),
          (copies (Z.to_nat (Z.abs (xpos (flip s)))) " "
           ++ copies k "~")%string).
Proof.
  destruct (flip_fields s) as (_ & _ & Hex & Hel & _).
  unfold toSquiggles. rewrite Hex, Hel. cbn [range_map].
  rewrite Z.sub_0_r.
  match goal with
  | |- context [if ?b then Some ?len else Some ?x] =>
      destruct b; [set (e := len)|set (e := x)]
  end;
    (destruct (e =? xpos (flip s)) eqn:E;
     [apply Z.eqb_eq in E|apply Z.eqb_neq in E];
     eexists; (split; [|reflexivity]); lia).
Qed.

(** X20: after advance(n) over n >= 0 characters without a linefeed and
    flip(), toSquiggles() marks the stretch walked over: as many spaces as
    the column where the state stood, then n tildes, or one tilde for
    n = 0. *)
Theorem squiggles_one_line s (n : Z) :
  0 <= pos s -> 0 <= xpos s -> 0 <= n ->
  occurrences newline
    (substring (Z.to_nat (pos s)) (Z.to_nat n) (text s)) = O ->
  snd (toSquiggles (flip (advance s n)))
  = (copies (Z.to_nat (xpos s)) " "
     ++ copies (Z.to_nat (Z.max 1 n)) "~")%string.
Proof.
  intros Hpos Hxpos Hn Hnone.
  destruct (flip_fields (advance s n)) as (Hstart & _ & Hex & Hel & _).
  destruct (advance_fields s n) as (_ & _ & Hold & _).
  rewrite Hold in Hstart. injection Hstart as _ Hx Hl.
  destruct (advance_same_line s n Hpos Hnone) as (Hline & Hcol).
  unfold toSquiggles. cbn [snd]. rewrite Hex, Hel, Hx, Hl, Hline, Hcol.
  replace (lineno s =? lineno s) with true
    by (symmetry; apply Z.eqb_eq; lia).
  cbn [negb range_map]. rewrite Z.sub_0_r, Z.abs_eq by lia.
  destruct (xpos s + Z.max 0 n =? xpos s) eqn:E;
    [apply Z.eqb_eq in E|apply Z.eqb_neq in E]; cbn [range_map];
    do 3 f_equal; lia.
Qed.

End Facts.
End ParserStateFacts.

(** ** The further theorems at concrete inputs *)

(** [repeat(letter, { min: 1 })] on "ab.": two letters are taken. *)
Lemma repeat_accumulates_witness :
  let id := fun p : string => p in
  let ss := [ mkSuccess (mkSpan 0 1) (VString "a");
              mkSuccess (mkSpan 1 2) (VString "b") ] in
  let options := mkOptions (Some (Num 1)) None in
  Forall (fun s => start (sspan s) <> end_ (sspan s)) ss
  /\ (ss <> [] ->
      lt_number (Z.of_nat (length ss) - 1) (repeat_max options) = true)
  /\ exists r0 r,
       repeat_matcher (A := ascii) (ParseTask := unit) "letter{1+}" "letter"
         options [] 0 [] = Returned r0 []
       /\ feed id id r0 (map MSuccess ss) [] = Returned r []
       /\ In (IMatch (MSuccess
                        (mkSuccess (mkSpan 0 2)
                           (VArray [ VString "a"; VString "b" ])))) r.
Proof.
  split; [repeat constructor; discriminate|]. split; [reflexivity|].
  destruct (repeat_accumulates (A := ascii) (ParseTask := unit)
              (fun p : string => p) (fun p : string => p)
              "letter{1+}" "letter" (mkOptions (Some (Num 1)) None) [] 0
              [ mkSuccess (mkSpan 0 1) (VString "a");
                mkSuccess (mkSpan 1 2) (VString "b") ] [])
    as (r0 & r & Hmatcher & Hfeed & Hcandidate & _).
  - repeat constructor; discriminate.
  - reflexivity.
  - exists r0, r. split; [exact Hmatcher|]. split; [exact Hfeed|].
    apply Hcandidate. reflexivity.
Defined.

Lemma repeat_consumes_witness :
  let id := fun p : string => p in
  let ss := [ mkSuccess (mkSpan 0 1) (VString "a");
              mkSuccess (mkSpan 1 2) (VString "b") ] in
  let options := mkOptions (Some (Num 1)) None in
  let r0 := next (ParseTask := unit) "letter{1+}" "letter" (Num 1) Infinity
              0 0 [] 0 in
  let r := next (ParseTask := unit) "letter{1+}" "letter" (Num 1) Infinity
             0 2 [ VString "a"; VString "b" ] 2 in
  linked 0 ss
  /\ (ss <> [] ->
      lt_number (Z.of_nat (length ss) - 1) (repeat_max options) = true)
  /\ repeat_matcher (A := ascii) "letter{1+}" "letter" options [] 0 []
     = Returned r0 []
  /\ feed id id r0 (map MSuccess ss) [] = Returned r []
  /\ 0 + Z.of_nat (length ss) <= last_end 0 ss.
Proof.
  split; [simpl; lia|]. split; [reflexivity|]. split; [reflexivity|].
  split; [reflexivity|].
  apply (repeat_consumes (A := ascii) (ParseTask := unit)
           (fun p : string => p) (fun p : string => p)
           "letter{1+}" "letter" (mkOptions (Some (Num 1)) None) [] 0
           [ mkSuccess (mkSpan 0 1) (VString "a");
             mkSuccess (mkSpan 1 2) (VString "b") ] [] []
           (next "letter{1+}" "letter" (Num 1) Infinity 0 0 [] 0)
           (next "letter{1+}" "letter" (Num 1) Infinity 0 2
              [ VString "a"; VString "b" ] 2)).
  - simpl. lia.
  - reflexivity.
  - reflexivity.
  - reflexivity.
Defined.

(** [repeat(letter, { min: 3, max: 2 })]: two letters, and no match. *)
Lemma repeat_min_above_max_witness :
  let id := fun p : string => p in
  let ms := [ MSuccess (mkSuccess (mkSpan 0 1) (VString "a"));
              MSuccess (mkSuccess (mkSpan 1 2) (VString "b")) ] in
  let r0 := next (ParseTask := unit) "letter{3, 2}" "letter" (Num 3) (Num 2)
              0 0 [] 0 in
  let r := next (ParseTask := unit) "letter{3, 2}" "letter" (Num 3) (Num 2)
             0 2 [ VString "a"; VString "b" ] 2 in
  0 < 2 /\ 2 < 3
  /\ repeat_matcher (A := ascii) "letter{3, 2}" "letter"
       (mkOptions (Some (Num 3)) (Some (Num 2))) [] 0 [] = Returned r0 []
  /\ feed id id r0 ms [] = Returned r []
  /\ has_success r = false.
Proof.
  split; [lia|]. split; [lia|]. split; [reflexivity|]. split; [reflexivity|].
  apply (repeat_min_above_max (A := ascii) (ParseTask := unit)
           (fun p : string => p) (fun p : string => p)
           "letter{3, 2}" "letter" 3 2 [] 0
           [ MSuccess (mkSuccess (mkSpan 0 1) (VString "a"));
             MSuccess (mkSuccess (mkSpan 1 2) (VString "b")) ] [] []
           (next "letter{3, 2}" "letter" (Num 3) (Num 2) 0 0 [] 0)
           (next "letter{3, 2}" "letter" (Num 3) (Num 2) 0 2
              [ VString "a"; VString "b" ] 2)); try lia; reflexivity.
Defined.

(** [alt(hello, goodbye)] on "goodbye": the second alternative reports
    first and succeeds, then the first fails. *)
Lemma alt_success_no_failure_witness :
  let id := fun p : string => p in
  let s := mkSuccess (mkSpan 0 7) (VString "goodbye") in
  let f := mkFailure (ParseTask := unit) (mkSpan 0 0) "Expected 'hello'"
             None 0 in
  let children := [ "'hello'"; "'goodbye'" ] in
  let reports := [ (1%nat, MSuccess s); (0%nat, MFailure f) ] in
  List.NoDup (map fst reports)
  /\ Forall (fun report => (fst report < length children)%nat) reports
  /\ In (1%nat, MSuccess s) reports
  /\ exists handler heap1 outs heap2,
       alt_matcher (A := ascii) "greeting" children [] 0 []
         = Returned (rev (map (fun p => ISchedule p 0 handler) children))
             heap1
       /\ deliver id id handler (map snd reports) heap1
          = Returned outs heap2
       /\ Forall (fun out => has_failure out = false) outs.
Proof.
  split; [repeat constructor; simpl; intuition lia|].
  split; [repeat constructor|]. split; [left; reflexivity|].
  destruct (alt_success_no_failure (A := ascii) (ParseTask := unit)
              (fun p : string => p) (fun p : string => p)
              "greeting" [ "'hello'"; "'goodbye'" ] [] 0 []
              [ (1%nat, MSuccess (mkSuccess (mkSpan 0 7) (VString "goodbye")));
                (0%nat, MFailure (mkFailure (mkSpan 0 0) "Expected 'hello'"
                                   None 0)) ]
              1%nat (mkSuccess (mkSpan 0 7) (VString "goodbye")))
    as (handler & heap1 & outs & heap2 & Hmatcher & Hrun & Hquiet & _).
  - repeat constructor; simpl; intuition lia.
  - repeat constructor.
  - left. reflexivity.
  - exists handler, heap1, outs, heap2. auto.
Defined.

(** Two failures at 4 with priority 0, recorded in either order. *)
Lemma findBestFail_order_witness :
  let f1 := mkFailure (ParseTask := unit) (mkSpan 4 4) "Expected 'bye'"
              None 0 in
  let f2 := mkFailure (ParseTask := unit) (mkSpan 4 4) "Expected 'night'"
              None 0 in
  Permutation [ f1; f2 ] [ f2; f1 ]
  /\ pickBest [ f1; f2 ] = Some f1
  /\ exists best',
       pickBest [ f2; f1 ] = Some best'
       /\ priority best' = priority f1
       /\ start (fspan best') = start (fspan f1).
Proof.
  split; [apply perm_swap|]. split; [reflexivity|].
  apply (findBestFail_order (ParseTask := unit)
           [ mkFailure (mkSpan 4 4) "Expected 'bye'" None 0;
             mkFailure (mkSpan 4 4) "Expected 'night'" None 0 ]
           [ mkFailure (mkSpan 4 4) "Expected 'night'" None 0;
             mkFailure (mkSpan 4 4) "Expected 'bye'" None 0 ]
           (mkFailure (mkSpan 4 4) "Expected 'bye'" None 0)).
  - apply perm_swap.
  - reflexivity.
Defined.

(** [chain(check(hello), hello, (_, v) => v)] on "hello". *)
Lemma chain_check_then_parser_witness :
  let id := fun p : string => p in
  let s := mkSuccess (mkSpan 0 5) (VString "hello") in
  start (sspan s) = 0 /\ 0 <= end_ (sspan s)
  /\ exists r0 m0,
       chain_matcher (A := ascii) (ParseTask := unit) "check('hello')"
         "'hello'" (fun _ v => v) [] 0 [] = Returned r0 []
       /\ call id id (check_handler 0) (MSuccess s) [] = Returned [ IMatch m0 ] []
       /\ feed id id r0 [ m0; MSuccess s ] [] = Returned [ IMatch (MSuccess s) ] [].
Proof.
  split; [reflexivity|]. split; [simpl; lia|].
  destruct (chain_check_then_parser (A := ascii) (ParseTask := unit)
              (fun p : string => p) (fun p : string => p)
              "check('hello')" "'hello'" [] 0
              (mkSuccess (mkSpan 0 5) (VString "hello"))
              (mkSuccess (mkSpan 0 5) (VString "hello")) [])
    as (r0 & m0 & handler & Hmatcher & Hcheck & _ & Hfeed & _).
  - reflexivity.
  - simpl. lia.
  - exists r0, m0. auto.
Defined.

(** [seq(hello, check(there), th)] on "hellothere", as in the test "check
    within a sequence": the span ends at 7. *)
Lemma seq_collects_witness :
  let children := [ "'hello'"; "check('there')"; "'th'" ] in
  let ss := [ mkSuccess (mkSpan 0 5) (VString "hello");
              mkSuccess (mkSpan 5 5) (VString "there");
              mkSuccess (mkSpan 5 7) (VString "th") ] in
  (length ss <= length children)%nat
  /\ seq_feed (seq_matcher (A := ascii) (ParseTask := unit) children [] 0)
       (map MSuccess ss)
     = [ SMatch (MSuccess
                   (mkSuccess (mkSpan 0 7)
                      (VArray [ VString "hello"; VString "there";
                                VString "th" ]))) ].
Proof.
  split; [simpl; lia|].
  apply (seq_collects (A := ascii) (ParseTask := unit)
           [ "'hello'"; "check('there')"; "'th'" ] [] 0
           [ mkSuccess (mkSpan 0 5) (VString "hello");
             mkSuccess (mkSpan 5 5) (VString "there");
             mkSuccess (mkSpan 5 7) (VString "th") ]).
  - simpl. lia.
  - reflexivity.
Defined.

(** The same sequence on "helloth": the lookahead fails at 5. *)
Lemma seq_failure_witness :
  let children := [ "'hello'"; "check('there')"; "'th'" ] in
  let ss := [ mkSuccess (mkSpan 0 5) (VString "hello") ] in
  let failure := mkFailure (ParseTask := unit) (mkSpan 5 5)
                   "Expected 'there'" None 0 in
  (length ss < length children)%nat
  /\ seq_feed (seq_matcher (A := ascii) children [] 0)
       (map MSuccess ss ++ [ MFailure failure ])
     = [ SMatch (MFailure failure) ].
Proof.
  split; [simpl; lia|].
  apply (seq_failure (A := ascii) (ParseTask := unit)
           [ "'hello'"; "check('there')"; "'th'" ] [] 0
           [ mkSuccess (mkSpan 0 5) (VString "hello") ]
           (mkFailure (mkSpan 5 5) "Expected 'there'" None 0)).
  simpl. lia.
Defined.

(** A text of two lines, "ab" and "cde", at its start. *)
Lemma advance_add_witness :
  let s := ParserState.new (Trampoline := unit) (Debugger := unit)
             ("ab" ++ String "010" "cde")%string None None tt in
  0 <= 1 /\ 0 <= 3
  /\ ParserState.pos (ParserState.advance (ParserState.advance s 1) 3)
     = ParserState.pos (ParserState.advance s (1 + 3))
  /\ ParserState.lineno (ParserState.advance (ParserState.advance s 1) 3)
     = ParserState.lineno (ParserState.advance s (1 + 3))
  /\ ParserState.xpos (ParserState.advance (ParserState.advance s 1) 3)
     = ParserState.xpos (ParserState.advance s (1 + 3)).
Proof.
  split; [lia|]. split; [lia|].
  destruct (ParserStateFacts.advance_add
              (ParserState.new (Trampoline := unit) (Debugger := unit)
                 ("ab" ++ String "010" "cde")%string None None tt) 1 3)
    as (Hpos & Hline & Hcol & _); [lia|lia|].
  auto.
Defined.

Lemma advance_counts_lines_witness :
  let s := ParserState.new (Trampoline := unit) (Debugger := unit)
             ("ab" ++ String "010" "cde")%string None None tt in
  0 <= ParserState.pos s
  /\ ParserState.lineno (ParserState.advance s 4)
     = ParserState.lineno s
       + Z.of_nat (ParserState.occurrences ParserState.newline
                     (substring (Z.to_nat (ParserState.pos s)) (Z.to_nat 4)
                        (ParserState.text s))).
Proof.
  split; [simpl; lia|].
  apply (ParserStateFacts.advance_counts_lines
           (ParserState.new (Trampoline := unit) (Debugger := unit)
              ("ab" ++ String "010" "cde")%string None None tt) 4).
  simpl. lia.
Defined.

(** "hello" after [advance(3)]: the first flip spans 0 to 3, the second 0
    to 0. *)
Lemma flip_twice_witness :
  let s := ParserState.new (Trampoline := unit) (Debugger := unit)
             "hello" None None tt in
  0 < 3
  /\ ParserState.flip (ParserState.flip (ParserState.advance s 3))
     <> ParserState.flip (ParserState.advance s 3)
  /\ ParserState.pos (ParserState.flip (ParserState.advance s 3)) = 0
  /\ ParserState.endpos (ParserState.flip (ParserState.advance s 3))
     = Some 3
  /\ ParserState.endpos
       (ParserState.flip (ParserState.flip (ParserState.advance s 3)))
     = Some 0.
Proof.
  split; [lia|].
  destruct (ParserStateFacts.flip_twice
              (ParserState.new (Trampoline := unit) (Debugger := unit)
                 "hello" None None tt) 3)
    as (Hne & _ & Hp & He & He2 & _); [lia|].
  split; [exact Hne|]. split; [exact Hp|]. split; [exact He|exact He2].
Defined.

Lemma backfill_covers_witness :
  let s := ParserState.new (Trampoline := unit) (Debugger := unit)
             ("ab" ++ String "010" "cde")%string None None tt in
  ParserState.endpos s = None /\ 0 <= 2 /\ 0 <= 3
  /\ ParserState.pos
       (ParserState.flip
          (ParserState.backfill
             (ParserState.advance (ParserState.advance s 2) 3)
             (ParserState.advance s 2)))
     = ParserState.pos s
  /\ ParserState.endpos
       (ParserState.flip
          (ParserState.backfill
             (ParserState.advance (ParserState.advance s 2) 3)
             (ParserState.advance s 2)))
     = Some (ParserState.pos s + 2 + 3).
Proof.
  split; [reflexivity|]. split; [lia|]. split; [lia|].
  destruct (ParserStateFacts.backfill_covers
              (ParserState.new (Trampoline := unit) (Debugger := unit)
                 ("ab" ++ String "010" "cde")%string None None tt) 2 3)
    as (Hpos & Hend & _); [reflexivity|lia|lia|].
  auto.
Defined.

(** The line around the linefeed at 2 is "ab"; its second character is
    no linefeed. *)
Lemma line_has_no_linefeed_witness :
  let s := ParserState.new (Trampoline := unit) (Debugger := unit)
             ("ab" ++ String "010" "cde")%string None None tt in
  0 <= 2
  /\ String.get 1 (ParserState.line s 2) = Some "b"%char
  /\ "b"%char <> ParserState.newline.
Proof.
  split; [lia|]. split; [reflexivity|].
  apply (ParserStateFacts.line_has_no_linefeed
           (ParserState.new (Trampoline := unit) (Debugger := unit)
              ("ab" ++ String "010" "cde")%string None None tt)
           2 1%nat "b"%char).
  - lia.
  - reflexivity.
Defined.

Lemma line_is_whole_witness :
  let s := ParserState.new (Trampoline := unit) (Debugger := unit)
             ("ab" ++ String "010" "cde")%string None None tt in
  0 <= 4
  /\ exists lstart lend,
       ParserState.line s 4 = ParserState.slice (ParserState.text s) lstart lend
       /\ (lstart = 0
           \/ ParserState.is_newline (ParserState.text s) (lstart - 1) = true)
       /\ (ParserState.end_ s <= lend
           \/ ParserState.is_newline (ParserState.text s) lend = true).
Proof.
  split; [lia|].
  destruct (ParserStateFacts.line_is_whole
              (ParserState.new (Trampoline := unit) (Debugger := unit)
                 ("ab" ++ String "010" "cde")%string None None tt) 4)
    as (lstart & lend & Hline & Hstart & Hend & _); [lia|].
  exists lstart, lend. auto.
Defined.

(** From the start of the second line, two characters on: "~~" under
    "cd". *)
Lemma squiggles_one_line_witness :
  let s := ParserState.advance
             (ParserState.new (Trampoline := unit) (Debugger := unit)
                ("ab" ++ String "010" "cde")%string None None tt) 3 in
  0 <= ParserState.pos s /\ 0 <= ParserState.xpos s /\ 0 <= 2
  /\ ParserState.occurrences ParserState.newline
       (substring (Z.to_nat (ParserState.pos s)) (Z.to_nat 2)
          (ParserState.text s)) = O
  /\ snd (ParserState.toSquiggles (ParserState.flip (ParserState.advance s 2)))
     = (ParserState.copies (Z.to_nat (ParserState.xpos s)) " "
        ++ ParserState.copies (Z.to_nat (Z.max 1 2)) "~")%string.
Proof.
  split; [simpl; lia|]. split; [simpl; lia|]. split; [lia|].
  split; [reflexivity|].
  apply (ParserStateFacts.squiggles_one_line
           (ParserState.advance
              (ParserState.new (Trampoline := unit) (Debugger := unit)
                 ("ab" ++ String "010" "cde")%string None None tt) 3) 2).
  - simpl. lia.
  - simpl. lia.
  - lia.
  - reflexivity.
Defined.

(** [seq2(hello, there)] and [seq(hello, there)] on "hellothere". *)
Lemma seq2_agrees_with_seq_witness :
  let id := fun p : string => p in
  let s1 := mkSuccess (mkSpan 0 5) (VString "hello") in
  let s2 := mkSuccess (mkSpan 5 10) (VString "there") in
  let both := mkSuccess (mkSpan 0 10)
                (VArray [ VString "hello"; VString "there" ]) in
  linked 0 [ s1; s2 ]
  /\ exists r0,
       seq2_matcher (A := ascii) (ParseTask := unit) "'hello'" "'there'"
         [] 0 [] = Returned r0 []
       /\ feed id id r0 [ MSuccess s1; MSuccess s2 ] []
          = Returned [ IMatch (MSuccess both) ] []
       /\ seq_feed
            (seq_matcher (A := ascii) (ParseTask := unit)
               [ "'hello'"; "'there'" ] [] 0)
            [ MSuccess s1; MSuccess s2 ]
          = [ SMatch (MSuccess both) ].
Proof.
  split; [simpl; lia|].
  destruct (seq2_agrees_with_seq (A := ascii) (ParseTask := unit)
              (fun p : string => p) (fun p : string => p)
              "'hello'" "'there'" [] 0
              (mkSuccess (mkSpan 0 5) (VString "hello"))
              (mkSuccess (mkSpan 5 10) (VString "there")) [])
    as (r0 & Hmatcher & Hchain & Hseq & _); [simpl; lia|].
  exists r0. auto.
Defined.

(** [repeat(optional(digit))] at position 3. *)
Lemma repeat_optional_throws_witness :
  let id := fun p : string => p in
  lt_number 0 (repeat_max (mkOptions None None)) = true
  /\ exists items m,
       optionalOr_matcher (A := ascii) (ParseTask := unit) "digit"
         VUndefined [] 3 [] = Returned items []
       /\ In (IMatch m) items
       /\ answer id id
            (next "repeat" "optional(digit)" (Num 0) Infinity 3 0 [] 3) m []
          = Thrown
              "Repeating parser isn't making progress at position 3: optional(digit)".
Proof.
  split; [reflexivity|].
  apply (repeat_optional_throws (A := ascii) (ParseTask := unit)
           (fun p : string => p) (fun p : string => p)
           "repeat" "optional(digit)" "digit" VUndefined
           (mkOptions None None) [] 3 0 [] 3 []).
  reflexivity.
Defined.

(** X26: mergeSpan of two spans that do not end before they start is such a
    span again; it lies within the covering span of the two and contains
    at least one of them. *)
Theorem mergeSpan_within (s1 s2 : Span) :
  start s1 <= end_ s1 -> start s2 <= end_ s2 ->
  start (mergeSpan s1 s2) <= end_ (mergeSpan s1 s2)
  /\ start (covering s1 s2) <= start (mergeSpan s1 s2)
  /\ end_ (mergeSpan s1 s2) <= end_ (covering s1 s2)
  /\ ((start (mergeSpan s1 s2) <= start s1
       /\ end_ s1 <= end_ (mergeSpan s1 s2))
      \/ (start (mergeSpan s1 s2) <= start s2
          /\ end_ s2 <= end_ (mergeSpan s1 s2))).
Proof.
  intros H1 H2. unfold mergeSpan, covering.
  destruct s1 as [a b], s2 as [c d]; simpl in *.
  destruct (a <? c) eqn:E1; [apply Z.ltb_lt in E1|apply Z.ltb_ge in E1];
    (destruct (b <? d) eqn:E2; [apply Z.ltb_lt in E2|apply Z.ltb_ge in E2]);
    simpl; lia.
Qed.

(** A span inside another: the merge is within the outer one. *)
Lemma mergeSpan_within_witness :
  start (mkSpan 0 10) <= end_ (mkSpan 0 10)
  /\ start (mkSpan 1 2) <= end_ (mkSpan 1 2)
  /\ start (mergeSpan (mkSpan 0 10) (mkSpan 1 2))
     <= end_ (mergeSpan (mkSpan 0 10) (mkSpan 1 2))
  /\ end_ (mergeSpan (mkSpan 0 10) (mkSpan 1 2))
     <= end_ (covering (mkSpan 0 10) (mkSpan 1 2)).
Proof.
  split; [simpl; lia|]. split; [simpl; lia|].
  destruct (mergeSpan_within (mkSpan 0 10) (mkSpan 1 2))
    as (Hwf & _ & Hend & _); [simpl; lia|simpl; lia|].
  auto.
Defined.

(** [chain(hello, there, ...)] on "hellothere": the span is (0, 10). *)
Lemma chain_span_covers_witness :
  let id := fun p : string => p in
  let f := fun a b : Value => VArray [ a; b ] in
  start (mkSpan 0 5) <= end_ (mkSpan 0 5)
  /\ end_ (mkSpan 0 5) = start (mkSpan 5 10)
  /\ start (mkSpan 5 10) <= end_ (mkSpan 5 10)
  /\ call (Parser := string) (ParseTask := unit) id id
       (chain_handler2 (mkSpan 0 5) (VString "hello") f)
       (MSuccess (mkSuccess (mkSpan 5 10) (VString "there"))) []
     = Returned
         [ IMatch (MSuccess
             (mkSuccess (covering (mkSpan 0 5) (mkSpan 5 10))
                (f (VString "hello") (VString "there")))) ] [].
Proof.
  split; [simpl; lia|]. split; [reflexivity|]. split; [simpl; lia|].
  apply (chain_span_covers (Parser := string) (ParseTask := unit)
           (fun p : string => p) (fun p : string => p)
           (mkSpan 0 5) (mkSpan 5 10) (VString "hello") (VString "there")
           (fun a b : Value => VArray [ a; b ]) []).
  - simpl. lia.
  - reflexivity.
  - simpl. lia.
Defined.
